(** * A reference-counting garbage-collected pointer: model and properties

    Shallow embedding of [src/gc_pointer.h], the class template
    [Pointer<T, size>].  One instantiation owns one static list
    [refContainer] of allocation records; every handle operation looks an
    address up in that list, bumps the count of the record it finds and
    runs [collect].

    Conventions of the model.
    - An address ([T*]) is an integer counted in units of [T], so that the
      pointer arithmetic [addr + _size] of [begin]/[end] is integer
      addition; [nullptr] is [0].
    - The static members of one instantiation are gathered in the record
      [GC], threaded explicitly through every operation.  Its last field
      logs the [delete] expressions the code evaluates, in order, with the
      form used ([delete] or [delete[]]).
    - In the main model the pointee type [T] has a destructor that does not
      touch the list (as for [int] or [double]); module [Reentrant] lifts
      that restriction for [collect].
    - A handle whose constructor leaves the data members unset starts from
      an arbitrary value, passed as the argument [raw].
    - The copy constructor and the assignment from a handle are not
      embedded: the body of [operator=(const Pointer &rv)] is the call
      [operator=(&rv)], whose argument is a [const Pointer*]; the class has
      no [operator=] that accepts it, whatever [T] is, and the copy
      constructor is [*this = ob].  A program that copies a handle is not
      accepted by the compiler, so these two members have no behaviour to
      model. *)

From Stdlib Require Import ZArith List Bool Lia.
Import ListNotations.
Local Open Scope Z_scope.

Definition address := Z.
Definition nullptr : address := 0.

(** The two forms of [delete] expression in [collect]. *)
Inductive DeleteExpr : Type :=
| DeleteArray (p : address)     (* delete [] p *)
| DeleteScalar (p : address).   (* delete p    *)

Definition deleted (e : DeleteExpr) : address :=
  match e with DeleteArray p => p | DeleteScalar p => p end.

(** Number of [delete] expressions in a log that were applied to [a]. *)
Definition times_deleted (a : address) (log : list DeleteExpr) : nat :=
  length (filter (fun e => deleted e =? a) log).

(** Conversions between [int] and [unsigned] (32 bits). *)
Definition to_unsigned (z : Z) : Z := z mod 2 ^ 32.
Definition to_int (z : Z) : Z :=
  let u := z mod 2 ^ 32 in if u <? 2 ^ 31 then u else u - 2 ^ 32.

Module PtrDetails.

(** Modelled from the spec: [PtrDetails<T>] is declared in [gc_details.h],
    which is not part of the sources.  The spec describes an Allocation
    Record as address, live-reference count (a non-negative integer),
    array flag and element count; a record inserted for an address starts
    with count 1 and is tagged as an array of the given element count when
    that count is greater than zero, as a scalar otherwise. *)
Record t : Type := mk {
  refcount : Z;
  memPtr : address;
  isArray : bool;
  arraySize : Z
}.

Definition make (ptr : address) (size : Z) : t :=
  {| refcount := 1; memPtr := ptr; isArray := 0 <? size; arraySize := size |}.

Definition with_refcount (c : Z) (d : t) : t :=
  {| refcount := c; memPtr := memPtr d; isArray := isArray d;
     arraySize := arraySize d |}.

End PtrDetails.

Definition details : Type := PtrDetails.t.

(** [iter->refcount--] and [iter->refcount++]. *)
Definition decr (d : details) : details :=
  PtrDetails.with_refcount (PtrDetails.refcount d - 1) d.
Definition incr (d : details) : details :=
  PtrDetails.with_refcount (PtrDetails.refcount d + 1) d.

(** The [delete] expression [collect] evaluates for a record. *)
Definition delete_of (d : details) : DeleteExpr :=
  if PtrDetails.isArray d then DeleteArray (PtrDetails.memPtr d)
  else DeleteScalar (PtrDetails.memPtr d).

(** ** Static state of one instantiation *)

Record GC : Type := mkGC {
  refContainer : list details;   (* static std::list<PtrDetails<T>> *)
  first : bool;                  (* static bool first *)
  atexit : nat;                  (* how often shutdown was registered *)
  freed : list DeleteExpr        (* delete expressions evaluated so far *)
}.

(** Static initialisation: empty list, [first = true]. *)
Definition initial : GC :=
  {| refContainer := []; first := true; atexit := 0%nat; freed := [] |}.

Definition with_refContainer (l : list details) (g : GC) : GC :=
  {| refContainer := l; first := first g; atexit := atexit g;
     freed := freed g |}.

(** A list iterator is a position; [None] is [refContainer.end()]. *)
Definition iterator := option nat.

(** [findPtrInfo]: the first record whose [memPtr] equals [ptr]. *)
Fixpoint findPtrInfo (ptr : address) (l : list details) : iterator :=
  match l with
  | [] => None
  | p :: l' =>
      if PtrDetails.memPtr p =? ptr then Some O
      else option_map S (findPtrInfo ptr l')
  end.

(** Update of the record an iterator points to. *)
Fixpoint at_iter (f : details -> details) (i : nat) (l : list details)
  : list details :=
  match l, i with
  | [], _ => []
  | p :: l', O => f p :: l'
  | p :: l', S j => p :: at_iter f j l'
  end.

(** [iter = findPtrInfo(a); if (iter != refContainer.end()) iter->refcount--;]
    as in [~Pointer] and [removePointer]. *)
Definition release (a : address) (l : list details) : list details :=
  match findPtrInfo a l with
  | Some i => at_iter decr i l
  | None => l
  end.

(** The loop of [collect] from the record under the iterator to the end:
    a record with [refcount == 0] is deleted by the form its [isArray]
    selects, erased, and [success] is set; any other record is kept.
    Result: the records kept, the [delete] expressions in order, and
    [success]. *)
Fixpoint collect_loop (l : list details) (success : bool)
  : list details * list DeleteExpr * bool :=
  match l with
  | [] => ([], [], success)
  | p :: l' =>
      if PtrDetails.refcount p =? 0 then
        let '(kept, dels, s) := collect_loop l' true in
        (kept, delete_of p :: dels, s)
      else
        let '(kept, dels, s) := collect_loop l' success in
        (p :: kept, dels, s)
  end.

Definition collect (g : GC) : bool * GC :=
  let '(kept, dels, success) := collect_loop (refContainer g) false in
  (success,
   {| refContainer := kept; first := first g; atexit := atexit g;
      freed := freed g ++ dels |}).

(** [refContainerSize()]: [refContainer.size()], returned as an [int]. *)
Definition refContainerSize (g : GC) : Z :=
  to_int (Z.of_nat (length (refContainer g))).

(** [shutdown]: nothing when [refContainerSize() == 0], otherwise every
    count is set to zero and [collect] runs. *)
Definition shutdown (g : GC) : GC :=
  if refContainerSize g =? 0 then g
  else
    snd (collect
           (with_refContainer
              (map (PtrDetails.with_refcount 0) (refContainer g)) g)).

(** ** The handle *)

Record Pointer : Type := mkPointer {
  addr : address;
  isArray : bool;
  arraySize : Z      (* unsigned *)
}.

Definition with_addr (a : address) (p : Pointer) : Pointer :=
  {| addr := a; isArray := isArray p; arraySize := arraySize p |}.

Section Specialization.

(** The template argument [size] of [Pointer<T, size>]. *)
Variable size : Z.

(** [removePointer(ptr)]: the parameter is not used, the lookup is on the
    member [addr]. *)
Definition removePointer (this : Pointer) (ptr : address) (g : GC) : GC :=
  snd (collect (with_refContainer (release (addr this) (refContainer g)) g)).

(** [iter = findPtrInfo(ptr); if (iter != refContainer.end()) iter->refcount++;
    else refContainer.emplace_back(ptr, size);] *)
Definition retain (ptr : address) (l : list details) : list details :=
  match findPtrInfo ptr l with
  | Some i => at_iter incr i l
  | None => l ++ [PtrDetails.make ptr size]
  end.

(** [addPointer(ptr, length)]: the record is built from [size], not from
    [length]; returns [this->addr]. *)
Definition addPointer (this : Pointer) (ptr : address) (length : Z) (g : GC)
  : address * Pointer * GC :=
  (ptr, with_addr ptr this,
   with_refContainer (retain ptr (refContainer g)) g).

(** [Pointer(T *t)]. *)
Definition Pointer_ctor (t : address) (g : GC) : Pointer * GC :=
  let g1 := {| refContainer := refContainer g; first := false;
               atexit := if first g then S (atexit g) else atexit g;
               freed := freed g |} in
  let this := {| addr := t; isArray := 0 <? size;
                 arraySize := to_unsigned size |} in
  let '(_, this', g2) := addPointer this t size g1 in
  (this', g2).

(** [~Pointer()]. *)
Definition Pointer_dtor (this : Pointer) (g : GC) : GC :=
  snd (collect (with_refContainer (release (addr this) (refContainer g)) g)).

(** [operator=(T *t)]. *)
Definition assign_ptr (this : Pointer) (t : address) (g : GC)
  : address * Pointer * GC :=
  addPointer this t size (removePointer this (addr this) g).

(** [Pointer()]: the body builds a temporary [Pointer(nullptr)], destroyed
    at the end of the statement; the members of [*this] are not set. *)
Definition Pointer_default (raw : Pointer) (g : GC) : Pointer * GC :=
  let '(tmp, g1) := Pointer_ctor nullptr g in
  (raw, Pointer_dtor tmp g1).

End Specialization.

(** ** Range views *)

Module Iter.

(** Modelled from the spec: [Iter<T>] is declared in [gc_iterator.h], which
    is not part of the sources.  The spec describes a Range View as current
    position, lower bound and upper bound, built from (start address, span
    lower bound, span upper bound); dereferencing a view positioned outside
    its span (at or beyond the upper bound, or below the lower bound)
    signals the out-of-range error; advancing is always permitted; two
    views compare by current position only. *)
Record t : Type := mk {
  ptr : address;
  lower : address;
  upper : address
}.

Inductive access : Type :=
| Element (p : address)
| OutOfRangeExc.

Definition deref (it : t) : access :=
  if (upper it <=? ptr it) || (ptr it <? lower it) then OutOfRangeExc
  else Element (ptr it).

Definition advance (it : t) : t :=
  {| ptr := ptr it + 1; lower := lower it; upper := upper it |}.

Definition eqb (a b : t) : bool := ptr a =? ptr b.

(** Outcome of a traversal from [it] up to [e]: while [it != e], the
    element under [it] is dereferenced and [it] advanced. *)
Inductive traversal : Type :=
| Yields (elements : list address)
| Throws (elements : list address)
| Unfinished.

Definition cons_element (p : address) (r : traversal) : traversal :=
  match r with
  | Yields l => Yields (p :: l)
  | Throws l => Throws (p :: l)
  | Unfinished => Unfinished
  end.

Fixpoint traverse (fuel : nat) (it e : t) : traversal :=
  match fuel with
  | O => Unfinished
  | S fuel' =>
      if eqb it e then Yields []
      else match deref it with
           | OutOfRangeExc => Throws []
           | Element p => cons_element p (traverse fuel' (advance it) e)
           end
  end.

End Iter.

(** [begin()] and [end()]. *)
Definition begin (this : Pointer) : Iter.t :=
  let _size := if isArray this then to_int (arraySize this) else 1 in
  Iter.mk (addr this) (addr this) (addr this + _size).

Definition end_ (this : Pointer) : Iter.t :=
  let _size := if isArray this then to_int (arraySize this) else 1 in
  Iter.mk (addr this + _size) (addr this) (addr this + _size).

(** ** Programs over one instantiation *)

(** One operation of the class, on handles of any value. *)
Inductive step (size : Z) (g : GC) : GC -> Prop :=
| step_ctor t : step size g (snd (Pointer_ctor size t g))
| step_default raw : step size g (snd (Pointer_default size raw g))
| step_assign_ptr this t : step size g (snd (assign_ptr size this t g))
| step_dtor this : step size g (Pointer_dtor this g)
| step_collect : step size g (snd (collect g))
| step_shutdown : step size g (shutdown g).

(** The states an instantiation can be in: from static initialisation, by
    any sequence of operations. *)
Inductive reachable (size : Z) : GC -> Prop :=
| reach_initial : reachable size initial
| reach_step g g' : reachable size g -> step size g g' -> reachable size g'.

(** ** [collect] over a pointee that owns handles

    When [T] has data members of type [Pointer<T, size>], the expression
    [delete iter->memPtr] runs their destructors, and each of them calls
    [collect] on the same list while the outer loop still holds [iter].
    Records carry a node identity here, since a [std::list] iterator stays
    valid across updates and erasures of other nodes. *)
Module Reentrant.

Definition node : Type := nat * details.

Record state : Type := mkState {
  nodes : list node;
  deletes : list DeleteExpr     (* delete expressions entered so far *)
}.

Inductive outcome : Type :=
| Returned (s : state) (success : bool)
| OutOfFuel (s : state)
| InvalidIterator (s : state).

Definition lookup (id : nat) (l : list node) : option details :=
  option_map snd (find (fun n => Nat.eqb (fst n) id) l).

(** The iterator after [id] in list order. *)
Fixpoint successor (id : nat) (l : list node) : option nat :=
  match l with
  | [] => None
  | n :: l' =>
      if Nat.eqb (fst n) id then option_map fst (hd_error l')
      else successor id l'
  end.

Definition erase (id : nat) (l : list node) : list node :=
  filter (fun n => negb (Nat.eqb (fst n) id)) l.

Definition find_node (ptr : address) (l : list node) : option nat :=
  option_map fst (find (fun n => PtrDetails.memPtr (snd n) =? ptr) l).

Definition at_node (f : details -> details) (id : nat) (l : list node)
  : list node :=
  map (fun n => if Nat.eqb (fst n) id then (fst n, f (snd n)) else n) l.

(** The part of [~Pointer()] before its call of [collect]. *)
Definition release (a : address) (s : state) : state :=
  match find_node a (nodes s) with
  | Some id => {| nodes := at_node decr id (nodes s); deletes := deletes s |}
  | None => s
  end.

Section Pointee.

(** [members a]: the addresses held, in order of destruction, by the
    handles that are data members of the object (or of the objects of the
    array) at [a]; their destructors run when [a] is deleted. *)
Variable members : address -> list address.

(** Destruction of handles holding [ms], given [collect]. *)
Fixpoint destroy (collect : state -> outcome) (ms : list address)
  (s : state) : outcome :=
  match ms with
  | [] => Returned s false
  | m :: ms' =>
      match collect (release m s) with
      | Returned s' _ => destroy collect ms' s'
      | o => o
      end
  end.

(** The loop of [collect] with the iterator at [cur]. *)
Fixpoint sweep (fuel : nat) (cur : option nat) (s : state) (success : bool)
  : outcome :=
  match fuel with
  | O => OutOfFuel s
  | S fuel' =>
      match cur with
      | None => Returned s success
      | Some id =>
          match lookup id (nodes s) with
          | None => InvalidIterator s
          | Some d =>
              if PtrDetails.refcount d =? 0 then
                let s1 := {| nodes := nodes s;
                             deletes := deletes s ++ [delete_of d] |} in
                let nested s' :=
                  sweep fuel' (option_map fst (hd_error (nodes s'))) s' false
                in
                match destroy nested (members (PtrDetails.memPtr d)) s1 with
                | Returned s2 _ =>
                    match lookup id (nodes s2) with
                    | None => InvalidIterator s2
                    | Some _ =>
                        sweep fuel' (successor id (nodes s2))
                          {| nodes := erase id (nodes s2);
                             deletes := deletes s2 |} true
                    end
                | o => o
                end
              else sweep fuel' (successor id (nodes s)) s success
          end
      end
  end.

Definition collect (fuel : nat) (s : state) : outcome :=
  sweep fuel (option_map fst (hd_error (nodes s))) s false.

(** [shutdown] over such a pointee; the boolean of the outcome is the
    result of [collect], which [shutdown] discards. *)
Definition shutdown (fuel : nat) (s : state) : outcome :=
  if to_int (Z.of_nat (length (nodes s))) =? 0 then Returned s false
  else
    collect fuel
      {| nodes :=
           map (fun n => (fst n, PtrDetails.with_refcount 0 (snd n)))
             (nodes s);
         deletes := deletes s |}.

End Pointee.

(** A list of records as a list of nodes, numbered by position. *)
Definition enter (l : list details) : state :=
  {| nodes := combine (seq 0 (length l)) l; deletes := [] |}.

End Reentrant.

(** ** Vocabulary of the properties *)

Definition dead (d : details) : bool := PtrDetails.refcount d =? 0.
Definition live (d : details) : bool := negb (dead d).
Definition tracks (a : address) (d : details) : bool :=
  PtrDetails.memPtr d =? a.

(** The records of a list for address [a], in list order. *)
Definition records_at (a : address) (l : list details) : list details :=
  filter (tracks a) l.

(** The count a lookup of [a] sees: that of the first record for [a]. *)
Definition count_of (a : address) (l : list details) : option Z :=
  option_map PtrDetails.refcount (find (tracks a) l).

(** The list invariant of the data model: one record per address, every
    count positive. *)
Definition well_formed (l : list details) : Prop :=
  NoDup (map PtrDetails.memPtr l) /\
  Forall (fun d => 0 < PtrDetails.refcount d) l.

(** The array shape an instantiation with argument [size] gives a record. *)
Definition has_shape (size : Z) (d : details) : Prop :=
  PtrDetails.isArray d = (0 <? size) /\ PtrDetails.arraySize d = size.

(** What an operation may not change in a record. *)
Definition shape_of (d : details) : address * bool * Z :=
  (PtrDetails.memPtr d, PtrDetails.isArray d, PtrDetails.arraySize d).

(** Every record of [l'] has the address and array shape of a record of
    [l], or the array shape the instantiation gives a new record. *)
Definition shape_kept (size : Z) (l l' : list details) : Prop :=
  forall d', In d' l' ->
    (exists d, In d l /\ shape_of d' = shape_of d) \/ has_shape size d'.

(** [live], [dead] and [delete_of] on the nodes of module [Reentrant]. *)
Definition node_live (n : Reentrant.node) : bool := live (snd n).
Definition node_dead (n : Reentrant.node) : bool := dead (snd n).
Definition node_delete (n : Reentrant.node) : DeleteExpr :=
  delete_of (snd n).

(** A pointee that owns a handle, as [struct Node { Pointer<Node> next; }]:
    the object at address 1 has one handle member, holding address 2. *)
Definition node_members (a : address) : list address :=
  if a =? 1 then [2] else [].

(** Two pointees that hold each other: the object at address 1 owns a
    handle holding 2, the object at 2 a handle holding 1. *)
Definition cycle_members (a : address) : list address :=
  if a =? 1 then [2] else if a =? 2 then [1] else [].

(** * Properties *)

(** ** The sweep *)

Lemma collect_loop_spec (l : list details) (success : bool) :
  collect_loop l success =
  (filter live l, map delete_of (filter dead l),
   success || existsb dead l).
Proof.
  revert success.
  induction l as [|p l IH]; intros success; simpl.
  - now rewrite orb_false_r.
  - unfold live, dead in *.
    destruct (PtrDetails.refcount p =? 0) eqn:E; simpl; rewrite IH; simpl.
    + now rewrite orb_true_r.
    + reflexivity.
Qed.

Lemma collect_spec (g : GC) :
  collect g =
  (existsb dead (refContainer g),
   {| refContainer := filter live (refContainer g);
      first := first g; atexit := atexit g;
      freed := freed g ++ map delete_of (filter dead (refContainer g)) |}).
Proof.
  unfold collect. now rewrite collect_loop_spec.
Qed.

Lemma filter_dead_live (l : list details) : filter dead (filter live l) = [].
Proof.
  induction l as [|p l IH]; simpl; trivial.
  unfold live at 1. destruct (dead p) eqn:E; simpl; trivial.
  now rewrite E.
Qed.

Lemma filter_live_live (l : list details) :
  filter live (filter live l) = filter live l.
Proof.
  induction l as [|p l IH]; simpl; trivial.
  destruct (live p) eqn:E; simpl; trivial.
  now rewrite E, IH.
Qed.

Lemma existsb_dead_filter (l : list details) :
  existsb dead l = negb (Nat.eqb (length (filter dead l)) 0).
Proof.
  induction l as [|p l IH]; simpl; trivial.
  destruct (dead p); simpl; trivial.
Qed.

Lemma deleted_delete_of (d : details) :
  deleted (delete_of d) = PtrDetails.memPtr d.
Proof. unfold delete_of. now destruct (PtrDetails.isArray d). Qed.

Lemma delete_of_with_refcount (c : Z) (d : details) :
  delete_of (PtrDetails.with_refcount c d) = delete_of d.
Proof. reflexivity. Qed.

Lemma times_deleted_app (a : address) (log dels : list DeleteExpr) :
  times_deleted a (log ++ dels) =
  (times_deleted a log + times_deleted a dels)%nat.
Proof. unfold times_deleted. now rewrite filter_app, length_app. Qed.

Lemma times_deleted_delete_of (a : address) (l : list details) :
  times_deleted a (map delete_of l) = length (records_at a l).
Proof.
  unfold times_deleted, records_at.
  induction l as [|p l IH]; simpl; trivial.
  rewrite deleted_delete_of. unfold tracks at 1.
  destruct (PtrDetails.memPtr p =? a); simpl; now rewrite IH.
Qed.

(** ** Lookup and update *)

Lemma release_cons (a : address) (p : details) (l : list details) :
  release a (p :: l) =
  if tracks a p then decr p :: l else p :: release a l.
Proof.
  unfold release, tracks. simpl.
  destruct (PtrDetails.memPtr p =? a); trivial.
  now destruct (findPtrInfo a l).
Qed.

Lemma findPtrInfo_find (a : address) (l : list details) :
  match findPtrInfo a l with
  | Some i => nth_error l i = find (tracks a) l /\ find (tracks a) l <> None
  | None => find (tracks a) l = None
  end.
Proof.
  induction l as [|p l IH]; simpl; trivial.
  change (PtrDetails.memPtr p =? a) with (tracks a p).
  destruct (tracks a p); simpl.
  - split; [reflexivity | discriminate].
  - destruct (findPtrInfo a l); simpl; exact IH.
Qed.

Lemma findPtrInfo_None (a : address) (l : list details) :
  findPtrInfo a l = None <-> records_at a l = [].
Proof.
  unfold records_at.
  induction l as [|p l IH]; simpl; [tauto|].
  change (PtrDetails.memPtr p =? a) with (tracks a p).
  destruct (tracks a p); simpl.
  - split; discriminate.
  - destruct (findPtrInfo a l); simpl in *.
    + split; [discriminate | intros H; apply IH in H; discriminate].
    + tauto.
Qed.

Lemma existsb_dead_live (l : list details) :
  existsb dead (filter live l) = false.
Proof. now rewrite existsb_dead_filter, filter_dead_live. Qed.

Lemma collect_after_collect (g : GC) :
  collect (snd (collect g)) = (false, snd (collect g)).
Proof.
  rewrite (collect_spec g); simpl.
  rewrite collect_spec; simpl.
  now rewrite existsb_dead_live, filter_dead_live, filter_live_live,
    app_nil_r.
Qed.

(** C7: [collect] returns [true] exactly when it evaluated at least one
    [delete] expression (freed at least one record); a second call right
    after the first returns [false] and leaves the whole state, list and
    log, as it was. *)
Theorem collect_idempotent (g : GC) :
  (fst (collect g) = true <->
   exists e dels, freed (snd (collect g)) = freed g ++ e :: dels) /\
  (fst (collect g) = true <->
   (length (refContainer (snd (collect g))) < length (refContainer g))%nat) /\
  collect (snd (collect g)) = (false, snd (collect g)).
Proof.
  split; [|split; [|apply collect_after_collect]].
  - rewrite collect_spec; simpl.
    rewrite existsb_dead_filter.
    destruct (filter dead (refContainer g)) as [|d ds]; simpl.
    + split; [discriminate|].
      intros (e & dels & H).
      apply app_inv_head in H. discriminate.
    + split; trivial. intros _. now eexists; eexists.
  - rewrite collect_spec; simpl.
    induction (refContainer g) as [|p l IH]; simpl.
    + split; [discriminate | lia].
    + unfold live. destruct (dead p); simpl.
      * split; trivial. intros _.
        pose proof (filter_length_le (fun d => negb (dead d)) l). lia.
      * rewrite IH. unfold live. lia.
Qed.

(** ** Zeroing the counts *)

Lemma filter_live_zeroed (l : list details) :
  filter live (map (PtrDetails.with_refcount 0) l) = [].
Proof. induction l as [|p l IH]; simpl; trivial. Qed.

Lemma filter_dead_zeroed (l : list details) :
  filter dead (map (PtrDetails.with_refcount 0) l) =
  map (PtrDetails.with_refcount 0) l.
Proof. induction l as [|p l IH]; simpl; trivial. now rewrite IH. Qed.

Lemma delete_of_zeroed (l : list details) :
  map delete_of (map (PtrDetails.with_refcount 0) l) = map delete_of l.
Proof. rewrite map_map. now apply map_ext. Qed.

Lemma to_int_zero (z : Z) : 0 <= z < 2 ^ 32 -> to_int z = 0 -> z = 0.
Proof.
  unfold to_int. intros H. rewrite Z.mod_small by lia.
  destruct (Z.ltb_spec z (2 ^ 31)); lia.
Qed.

Lemma collect_on_empty (g : GC) :
  refContainer g = [] -> snd (collect g) = g.
Proof.
  intros E. unfold collect. rewrite E. simpl.
  rewrite app_nil_r. destruct g; simpl in *; now subst.
Qed.

(** The two ways through [shutdown]. *)
Lemma shutdown_cases (g : GC) :
  shutdown g = g \/
  shutdown g =
    snd (collect
           (with_refContainer
              (map (PtrDetails.with_refcount 0) (refContainer g)) g)).
Proof.
  unfold shutdown. destruct (refContainerSize g =? 0); [now left|now right].
Qed.

(** Below 2^32 records the test [refContainerSize() == 0] is the test for
    the empty list, and [shutdown] is the zeroing followed by a sweep. *)
Lemma shutdown_as_sweep (g : GC) :
  Z.of_nat (length (refContainer g)) < 2 ^ 32 ->
  shutdown g =
  snd (collect
         (with_refContainer
            (map (PtrDetails.with_refcount 0) (refContainer g)) g)).
Proof.
  intros H. unfold shutdown.
  destruct (Z.eqb_spec (refContainerSize g) 0) as [E|E]; trivial.
  unfold refContainerSize in E. apply to_int_zero in E; [|lia].
  assert (El : refContainer g = []).
  { destruct (refContainer g); [reflexivity | simpl in E; lia]. }
  rewrite El. cbn [map]. rewrite collect_on_empty by reflexivity.
  destruct g; simpl in *; now subst.
Qed.

Lemma refContainer_shutdown (g : GC) :
  Z.of_nat (length (refContainer g)) < 2 ^ 32 ->
  refContainer (shutdown g) = [].
Proof.
  intros H. rewrite shutdown_as_sweep, collect_spec by assumption. simpl.
  apply filter_live_zeroed.
Qed.

Lemma refContainer_shutdown_cases (g : GC) :
  refContainer (shutdown g) = refContainer g \/
  refContainer (shutdown g) = [].
Proof.
  destruct (shutdown_cases g) as [-> | ->]; [now left|right].
  rewrite collect_spec. simpl. apply filter_live_zeroed.
Qed.

(** ** The sweep when deletion runs handle destructors *)

Module ReentrantFacts.
Import Reentrant.

Lemma lookup_middle (id : nat) (d : details) (pre post : list node) :
  ~ In id (map fst pre) ->
  lookup id (pre ++ (id, d) :: post) = Some d.
Proof.
  unfold lookup. induction pre as [|[i x] pre IH]; simpl; intros H.
  - now rewrite Nat.eqb_refl.
  - destruct (Nat.eqb_spec i id) as [->|_]; [tauto|]. apply IH. tauto.
Qed.

Lemma successor_middle (id : nat) (d : details) (pre post : list node) :
  ~ In id (map fst pre) ->
  successor id (pre ++ (id, d) :: post) = option_map fst (hd_error post).
Proof.
  induction pre as [|[i x] pre IH]; simpl; intros H.
  - now rewrite Nat.eqb_refl.
  - destruct (Nat.eqb_spec i id) as [->|_]; [tauto|]. apply IH. tauto.
Qed.

Lemma erase_absent (id : nat) (l : list node) :
  ~ In id (map fst l) -> erase id l = l.
Proof.
  unfold erase. induction l as [|[i x] l IH]; simpl; intros H; trivial.
  destruct (Nat.eqb_spec i id) as [->|_]; [tauto|]. simpl.
  rewrite IH; tauto.
Qed.

Lemma erase_middle (id : nat) (d : details) (pre post : list node) :
  ~ In id (map fst (pre ++ post)) ->
  erase id (pre ++ (id, d) :: post) = pre ++ post.
Proof.
  induction pre as [|[i x] pre IH]; simpl; intros H.
  - unfold erase; simpl. rewrite Nat.eqb_refl; simpl.
    now apply erase_absent.
  - unfold erase; simpl.
    destruct (Nat.eqb_spec i id) as [->|_]; [tauto|]. simpl.
    f_equal. apply IH. tauto.
Qed.

Section NoHandles.

Variable members : address -> list address.
Hypothesis no_handles : forall a, members a = [].

(** With the iterator at the head of [post], the loop keeps the records
    before it and treats [post] as [collect_loop] does. *)
Lemma sweep_no_handles (post : list node) :
  forall (fuel : nat) (pre : list node) (log : list DeleteExpr) (b : bool),
  NoDup (map fst (pre ++ post)) ->
  (length post < fuel)%nat ->
  sweep members fuel (option_map fst (hd_error post))
    {| nodes := pre ++ post; deletes := log |} b =
  Returned
    {| nodes := pre ++ filter node_live post;
       deletes := log ++ map node_delete (filter node_dead post) |}
    (b || existsb node_dead post).
Proof.
  induction post as [|[id d] post IH]; intros fuel pre log b ND Hf;
    (destruct fuel as [|fuel]; [simpl in Hf; lia|]); simpl.
  - now rewrite !app_nil_r, orb_false_r.
  - assert (Hpre : ~ In id (map fst pre)).
    { rewrite map_app in ND. simpl in ND. apply NoDup_remove_2 in ND.
      rewrite in_app_iff in ND. tauto. }
    assert (Hall : ~ In id (map fst (pre ++ post))).
    { rewrite map_app in *. simpl in ND. now apply NoDup_remove_2 in ND. }
    assert (ND' : NoDup (map fst (pre ++ post))).
    { rewrite map_app in *. simpl in ND. now apply NoDup_remove_1 in ND. }
    assert (Hf' : (length post < fuel)%nat) by (simpl in Hf; lia).
    rewrite lookup_middle by assumption.
    unfold node_live at 1, node_dead at 1 2 4, live, dead. simpl.
    destruct (PtrDetails.refcount d =? 0) eqn:E; simpl.
    + rewrite no_handles. simpl.
      rewrite lookup_middle, successor_middle, erase_middle by assumption.
      rewrite (IH fuel pre (log ++ [delete_of d]) true ND' Hf').
      rewrite orb_true_r. unfold node_delete at 2. simpl.
      now rewrite <- app_assoc.
    + rewrite successor_middle by assumption.
      assert (ND2 : NoDup (map fst ((pre ++ [(id, d)]) ++ post)))
        by now rewrite <- app_assoc.
      pose proof (IH fuel (pre ++ [(id, d)]) log b ND2 Hf') as IH'.
      rewrite <- !app_assoc in IH'. simpl in IH'.
      rewrite IH'. reflexivity.
Qed.

Lemma collect_no_handles (ns : list node) (log : list DeleteExpr)
  (fuel : nat) :
  NoDup (map fst ns) ->
  (length ns < fuel)%nat ->
  collect members fuel {| nodes := ns; deletes := log |} =
  Returned
    {| nodes := filter node_live ns;
       deletes := log ++ map node_delete (filter node_dead ns) |}
    (existsb node_dead ns).
Proof.
  intros ND Hf. exact (sweep_no_handles ns fuel [] log false ND Hf).
Qed.

End NoHandles.

Lemma enter_ids (l : list details) (k : nat) :
  map fst (combine (seq k (length l)) l) = seq k (length l).
Proof.
  revert k. induction l as [|p l IH]; intros k; simpl; trivial.
  now rewrite IH.
Qed.

Lemma enter_records (l : list details) (k : nat) :
  map snd (combine (seq k (length l)) l) = l.
Proof.
  revert k. induction l as [|p l IH]; intros k; simpl; trivial.
  now rewrite IH.
Qed.

Lemma live_on_records (ns : list node) :
  map snd (filter node_live ns) = filter live (map snd ns).
Proof.
  induction ns as [|[i d] ns IH]; simpl; trivial.
  unfold node_live at 1; simpl. destruct (live d); simpl; now rewrite IH.
Qed.

Lemma dead_on_records (ns : list node) :
  map node_delete (filter node_dead ns) =
  map delete_of (filter dead (map snd ns)).
Proof.
  induction ns as [|[i d] ns IH]; simpl; trivial.
  unfold node_dead at 1; simpl. destruct (dead d); simpl; now rewrite IH.
Qed.

Lemma existsb_on_records (ns : list node) :
  existsb node_dead ns = existsb dead (map snd ns).
Proof.
  induction ns as [|[i d] ns IH]; simpl; trivial. now rewrite IH.
Qed.

Lemma filter_ids_NoDup (f : node -> bool) (ns : list node) :
  NoDup (map fst ns) -> NoDup (map fst (filter f ns)).
Proof.
  induction ns as [|n ns IH]; simpl; intros ND; trivial.
  inversion ND as [|x xs Hx ND']; subst.
  destruct (f n); simpl; [constructor|]; auto.
  intros Hin. apply Hx.
  apply in_map_iff in Hin. destruct Hin as (m & <- & Hm).
  apply filter_In in Hm. apply in_map. tauto.
Qed.

Lemma filter_dead_live_nodes (ns : list node) :
  filter node_dead (filter node_live ns) = [].
Proof.
  induction ns as [|[i d] ns IH]; simpl; trivial.
  unfold node_live at 1, live; simpl. destruct (dead d) eqn:E; simpl; trivial.
  unfold node_dead at 1; simpl. now rewrite E.
Qed.

Lemma filter_live_live_nodes (ns : list node) :
  filter node_live (filter node_live ns) = filter node_live ns.
Proof.
  induction ns as [|n ns IH]; simpl; trivial.
  destruct (node_live n) eqn:E; simpl; trivial.
  now rewrite E, IH.
Qed.

(** C6, amended: when the destructor of the pointee owns no handle, so that
    no [delete] expression calls back into [collect], one sweep evaluates
    exactly one [delete] expression per record whose count is zero, in list
    order and of the form the record's [isArray] selects, erases exactly
    those records and keeps the others; this is what [collect_loop] computes;
    and a sweep run again on the result deletes nothing and changes
    nothing. *)
Theorem sweep_deletes_dead_records_once
  (members : address -> list address) (l : list details) :
  (forall a, members a = []) ->
  exists s,
    collect members (S (length l)) (enter l) =
      Returned s (existsb dead l) /\
    map snd (nodes s) = filter live l /\
    deletes s = map delete_of (filter dead l) /\
    collect_loop l false = (map snd (nodes s), deletes s, existsb dead l) /\
    collect members (S (length l)) s = Returned s false.
Proof.
  intros Hm. unfold enter.
  pose proof (enter_ids l 0) as Hids.
  pose proof (enter_records l 0) as Hrec.
  assert (Hlen : length (combine (seq 0 (length l)) l) = length l).
  { rewrite length_combine, length_seq. apply Nat.min_id. }
  set (ns := combine (seq 0 (length l)) l) in *.
  assert (ND : NoDup (map fst ns)) by (rewrite Hids; apply seq_NoDup).
  assert (Hlt : (length ns < S (length l))%nat)
    by (rewrite Hlen; apply Nat.lt_succ_diag_r).
  exists {| nodes := filter node_live ns;
            deletes := map node_delete (filter node_dead ns) |}.
  simpl nodes. simpl deletes.
  rewrite live_on_records, dead_on_records, Hrec.
  split.
  { rewrite (collect_no_handles members Hm ns [] (S (length l)) ND Hlt).
    simpl. now rewrite existsb_on_records, dead_on_records, Hrec. }
  split; [reflexivity|]. split; [reflexivity|]. split.
  { now rewrite collect_loop_spec. }
  assert (Hlt2 : (length (filter node_live ns) < S (length l))%nat).
  { eapply Nat.le_lt_trans; [apply filter_length_le | exact Hlt]. }
  rewrite (collect_no_handles members Hm _ _ _
             (filter_ids_NoDup node_live ns ND) Hlt2).
  rewrite filter_dead_live_nodes, filter_live_live_nodes. simpl.
  rewrite app_nil_r.
  replace (existsb node_dead (filter node_live ns)) with false; trivial.
  symmetry. rewrite existsb_on_records, live_on_records.
  apply existsb_dead_live.
Qed.

Lemma sweep_deletes_dead_records_once_witness :
  exists s,
    collect (fun _ => []) 4
      (enter [PtrDetails.mk 0 1 false 0; PtrDetails.mk 2 5 true 3;
              PtrDetails.mk 0 9 true 3]) = Returned s true /\
    map snd (nodes s) = [PtrDetails.mk 2 5 true 3] /\
    deletes s = [DeleteScalar 1; DeleteArray 9].
Proof.
  destruct (sweep_deletes_dead_records_once (fun _ => [])
              [PtrDetails.mk 0 1 false 0; PtrDetails.mk 2 5 true 3;
               PtrDetails.mk 0 9 true 3] (fun _ => eq_refl))
    as (s & H1 & H2 & H3 & _).
  exists s. split; [exact H1|]. split; [exact H2 | exact H3].
Defined.

(** The sweep never returns on the list holding one record of count zero
    whose object owns a handle: the destructor of that handle calls
    [collect] before the record is erased, the nested sweep finds the record
    again, and so on; every level evaluates the [delete] expression anew. *)
Lemma sweep_reenters_forever (fuel : nat) :
  forall (log : list DeleteExpr) (b : bool),
  sweep node_members fuel (Some 0%nat)
    {| nodes := [(0%nat, PtrDetails.mk 0 1 false 0)]; deletes := log |} b =
  OutOfFuel
    {| nodes := [(0%nat, PtrDetails.mk 0 1 false 0)];
       deletes := log ++ repeat (DeleteScalar 1) fuel |}.
Proof.
  induction fuel as [|fuel IH]; intros log b; simpl.
  - now rewrite app_nil_r.
  - unfold release; simpl. rewrite IH.
    now rewrite <- app_assoc.
Qed.

(** C6, counterexample: the list holds a single record, for address 1,
    with count zero; the object at 1 owns one handle.  Three levels into
    the sweep the [delete] expression for that one record has been
    evaluated three times, and the record is still in the list. *)
Lemma collect_reentered_deletes_again :
  exists s,
    collect node_members 3 (enter [PtrDetails.mk 0 1 false 0]) = OutOfFuel s /\
    nodes s = [(0%nat, PtrDetails.mk 0 1 false 0)] /\
    deletes s = [DeleteScalar 1; DeleteScalar 1; DeleteScalar 1] /\
    times_deleted 1 (deletes s) = 3%nat.
Proof.
  eexists. split; [reflexivity|]. repeat split.
Qed.

End ReentrantFacts.

(** ** Shutdown *)

Module ReentrantShutdown.
Import Reentrant ReentrantFacts.

Lemma zeroed_nodes (l : list details) (k : nat) :
  map (fun n : node => (fst n, PtrDetails.with_refcount 0 (snd n)))
    (combine (seq k (length l)) l) =
  combine (seq k (length (map (PtrDetails.with_refcount 0) l)))
    (map (PtrDetails.with_refcount 0) l).
Proof.
  revert k. induction l as [|p l IH]; intros k; simpl; trivial.
  now rewrite IH.
Qed.

Lemma zeroed_enter (l : list details) :
  map (fun n : node => (fst n, PtrDetails.with_refcount 0 (snd n)))
    (nodes (enter l)) =
  nodes (enter (map (PtrDetails.with_refcount 0) l)).
Proof. exact (zeroed_nodes l 0). Qed.

Lemma enter_nodes_ids (l : list details) :
  map fst (nodes (enter l)) = seq 0 (length l).
Proof. exact (enter_ids l 0). Qed.

Lemma enter_nodes_records (l : list details) :
  map snd (nodes (enter l)) = l.
Proof. exact (enter_records l 0). Qed.

Lemma enter_nodes_length (l : list details) :
  length (nodes (enter l)) = length l.
Proof.
  unfold enter. simpl.
  etransitivity; [apply length_combine|].
  rewrite length_seq. apply Nat.min_id.
Qed.

(** When the pointee owns no handle, [shutdown] returns with the list
    empty, having deleted every record once. *)
Lemma shutdown_no_handles (members : address -> list address)
  (l : list details) :
  (forall a, members a = []) ->
  Z.of_nat (length l) < 2 ^ 32 ->
  exists b,
    shutdown members (S (length l)) (enter l) =
    Returned {| nodes := []; deletes := map delete_of l |} b.
Proof.
  intros Hm Hl. unfold shutdown.
  rewrite enter_nodes_length.
  destruct (Z.eqb_spec (to_int (Z.of_nat (length l))) 0) as [E|E].
  - apply to_int_zero in E; [|lia].
    destruct l; [|simpl in E; lia]. now exists false.
  - rewrite zeroed_enter.
    set (zl := map (PtrDetails.with_refcount 0) l).
    pose proof (enter_nodes_ids zl) as Hids.
    pose proof (enter_nodes_records zl) as Hrec.
    assert (Hlt : (length (nodes (enter zl)) < S (length l))%nat).
    { rewrite enter_nodes_length. unfold zl. rewrite length_map.
      apply Nat.lt_succ_diag_r. }
    set (ns := nodes (enter zl)) in *.
    assert (ND : NoDup (map fst ns)) by (rewrite Hids; apply seq_NoDup).
    change (deletes (enter l)) with (@nil DeleteExpr).
    rewrite (collect_no_handles members Hm ns [] (S (length l)) ND Hlt).
    assert (Hlive : filter node_live ns = []).
    { apply (map_eq_nil snd). rewrite live_on_records, Hrec.
      apply filter_live_zeroed. }
    rewrite Hlive, dead_on_records, Hrec. unfold zl.
    rewrite filter_dead_zeroed, delete_of_zeroed. simpl.
    now eexists.
Qed.

(** Two pointees that hold each other: whatever the count of the second
    record, the sweep from the first, of count zero, does not return. *)
Lemma sweep_of_cycle_never_returns (fuel : nat) :
  forall (c : Z) (log : list DeleteExpr) (b : bool),
  exists c' log',
    sweep cycle_members fuel (Some 0%nat)
      {| nodes := [(0%nat, PtrDetails.mk 0 1 false 0);
                   (1%nat, PtrDetails.mk c 2 false 0)];
         deletes := log |} b =
    OutOfFuel
      {| nodes := [(0%nat, PtrDetails.mk 0 1 false 0);
                   (1%nat, PtrDetails.mk c' 2 false 0)];
         deletes := log' |}.
Proof.
  induction fuel as [|fuel IH]; intros c log b.
  - simpl. now eexists; eexists.
  - simpl. unfold release; simpl.
    destruct (IH (c - 1)
                (log ++ [delete_of (PtrDetails.mk 0 1 false 0)]) false)
      as (c' & log' & E).
    unfold decr, PtrDetails.with_refcount; simpl.
    match goal with
    | |- context [sweep cycle_members fuel ?cur ?st false] =>
        replace (sweep cycle_members fuel cur st false)
          with (OutOfFuel
                  {| nodes := [(0%nat, PtrDetails.mk 0 1 false 0);
                               (1%nat, PtrDetails.mk c' 2 false 0)];
                     deletes := log' |})
          by (symmetry; exact E)
    end.
    now eexists; eexists.
Qed.

Lemma shutdown_of_cycle_never_returns (fuel : nat) (c1 c2 : Z) :
  exists c' log',
    shutdown cycle_members fuel
      (enter [PtrDetails.mk c1 1 false 0; PtrDetails.mk c2 2 false 0]) =
    OutOfFuel
      {| nodes := [(0%nat, PtrDetails.mk 0 1 false 0);
                   (1%nat, PtrDetails.mk c' 2 false 0)];
         deletes := log' |}.
Proof.
  unfold shutdown, enter, collect. simpl.
  apply sweep_of_cycle_never_returns.
Qed.

End ReentrantShutdown.

(** C8, amended: when the pointee owns no handle (so that no [delete]
    calls back into the sweep) and the list has fewer than 2^32 records,
    [shutdown] is the forcing of every count to zero followed by one sweep;
    afterwards the list is empty and the log has grown by one [delete]
    expression per record that was in the list, each by the form its
    record selects, whatever the counts were.  The same holds of the sweep
    that runs the handle destructors of the pointee. *)
Theorem shutdown_empties (members : address -> list address) (g : GC) :
  (forall a, members a = []) ->
  Z.of_nat (length (refContainer g)) < 2 ^ 32 ->
  shutdown g =
    snd (collect
           (with_refContainer
              (map (PtrDetails.with_refcount 0) (refContainer g)) g)) /\
  refContainer (shutdown g) = [] /\
  freed (shutdown g) = freed g ++ map delete_of (refContainer g) /\
  (forall d, In d (refContainer g) ->
             times_deleted (PtrDetails.memPtr d) (freed (shutdown g)) =
             (times_deleted (PtrDetails.memPtr d) (freed g) +
              length (records_at (PtrDetails.memPtr d) (refContainer g)))%nat)
  /\
  exists b,
    Reentrant.shutdown members (S (length (refContainer g)))
      (Reentrant.enter (refContainer g)) =
    Reentrant.Returned
      {| Reentrant.nodes := [];
         Reentrant.deletes := map delete_of (refContainer g) |} b.
Proof.
  intros Hm Hl.
  split; [now apply shutdown_as_sweep|].
  split; [now apply refContainer_shutdown|].
  assert (Hf : freed (shutdown g) =
               freed g ++ map delete_of (refContainer g)).
  { rewrite shutdown_as_sweep, collect_spec by assumption. simpl.
    now rewrite filter_dead_zeroed, delete_of_zeroed. }
  split; [exact Hf|]. split.
  - intros d _.
    now rewrite Hf, times_deleted_app, times_deleted_delete_of.
  - now apply ReentrantShutdown.shutdown_no_handles.
Qed.

Lemma shutdown_empties_witness :
  let g := {| refContainer := [PtrDetails.mk 3 100 false 0;
                               PtrDetails.mk 1 200 true 4];
              first := false; atexit := 1%nat; freed := [] |} in
  refContainer (shutdown g) = [] /\
  freed (shutdown g) = [DeleteScalar 100; DeleteArray 200].
Proof.
  intros g.
  destruct (shutdown_empties (fun _ => []) g (fun _ => eq_refl) eq_refl)
    as (_ & H1 & H2 & _).
  split; [exact H1 | exact H2].
Defined.

(** C8, counterexample: two records of count 1, for the addresses 1 and 2,
    whose objects hold each other (a cycle, which no destructor ever
    brings to zero).  [shutdown] sets both counts to zero and calls
    [collect]; deleting the first object destroys its handle, whose
    destructor calls [collect] again before the record is erased.  Five
    levels down the first record has been deleted five times, the second
    never, and both are still in the list. *)
Lemma shutdown_of_cycle_does_not_empty :
  exists s,
    Reentrant.shutdown cycle_members 5
      (Reentrant.enter [PtrDetails.mk 1 1 false 0;
                        PtrDetails.mk 1 2 false 0]) =
      Reentrant.OutOfFuel s /\
    map (fun n => PtrDetails.memPtr (snd n)) (Reentrant.nodes s) = [1; 2] /\
    times_deleted 1 (Reentrant.deletes s) = 5%nat /\
    times_deleted 2 (Reentrant.deletes s) = 0%nat.
Proof.
  eexists. split; [reflexivity|]. repeat split.
Qed.

(** ** Counts under release, retain and sweep *)

Lemma retain_cons (size : Z) (a : address) (p : details) (l : list details) :
  retain size a (p :: l) =
  if tracks a p then incr p :: l else p :: retain size a l.
Proof.
  unfold retain, tracks. simpl.
  destruct (PtrDetails.memPtr p =? a); trivial.
  now destruct (findPtrInfo a l).
Qed.

Lemma tracks_decr (a : address) (p : details) : tracks a (decr p) = tracks a p.
Proof. reflexivity. Qed.

Lemma tracks_incr (a : address) (p : details) : tracks a (incr p) = tracks a p.
Proof. reflexivity. Qed.

Lemma tracks_eq (x a : address) (p : details) :
  tracks a p = true -> tracks x p = (x =? a).
Proof.
  unfold tracks. intros H. apply Z.eqb_eq in H. rewrite H. apply Z.eqb_sym.
Qed.

Lemma count_of_release (x a : address) (l : list details) :
  count_of x (release a l) =
  if x =? a then option_map (fun c => c - 1) (count_of a l)
  else count_of x l.
Proof.
  unfold count_of.
  induction l as [|p l IH]; simpl.
  - now destruct (x =? a).
  - rewrite release_cons.
    destruct (tracks a p) eqn:Ea; simpl.
    + rewrite tracks_decr, (tracks_eq x a p Ea).
      destruct (x =? a); reflexivity.
    + destruct (tracks x p) eqn:Ex.
      * destruct (Z.eqb_spec x a) as [->|_]; [congruence|reflexivity].
      * exact IH.
Qed.

Lemma count_of_retain (size : Z) (x a : address) (l : list details) :
  count_of x (retain size a l) =
  if x =? a
  then Some (match count_of a l with Some c => c + 1 | None => 1 end)
  else count_of x l.
Proof.
  unfold count_of.
  induction l as [|p l IH]; simpl.
  - unfold retain, tracks; simpl. rewrite (Z.eqb_sym a x).
    now destruct (x =? a).
  - rewrite retain_cons.
    destruct (tracks a p) eqn:Ea; simpl.
    + rewrite tracks_incr, (tracks_eq x a p Ea).
      destruct (x =? a); reflexivity.
    + destruct (tracks x p) eqn:Ex.
      * destruct (Z.eqb_spec x a) as [->|_]; [congruence|reflexivity].
      * exact IH.
Qed.

Lemma memPtr_release (a : address) (l : list details) :
  map PtrDetails.memPtr (release a l) = map PtrDetails.memPtr l.
Proof.
  induction l as [|p l IH]; trivial.
  rewrite release_cons. destruct (tracks a p); simpl; trivial.
  now rewrite IH.
Qed.

Lemma count_of_absent (x : address) (l : list details) :
  ~ In x (map PtrDetails.memPtr l) -> count_of x l = None.
Proof.
  unfold count_of. induction l as [|p l IH]; simpl; intros H; trivial.
  unfold tracks at 1. destruct (Z.eqb_spec (PtrDetails.memPtr p) x); [tauto|].
  apply IH. tauto.
Qed.

Lemma count_of_present (x : address) (l : list details) :
  In x (map PtrDetails.memPtr l) -> count_of x l <> None.
Proof.
  unfold count_of. induction l as [|p l IH]; simpl; intros H; [tauto|].
  unfold tracks at 1. destruct (Z.eqb_spec (PtrDetails.memPtr p) x);
    [discriminate|].
  apply IH. tauto.
Qed.

Lemma NoDup_map_filter {A B : Type} (k : A -> B) (f : A -> bool)
  (l : list A) :
  NoDup (map k l) -> NoDup (map k (filter f l)).
Proof.
  induction l as [|n l IH]; simpl; intros ND; trivial.
  inversion ND as [|x xs Hx ND']; subst.
  destruct (f n); simpl; [constructor|]; auto.
  intros Hin. apply Hx.
  apply in_map_iff in Hin. destruct Hin as (m & <- & Hm).
  apply filter_In in Hm. apply in_map. tauto.
Qed.

Lemma count_of_sweep (x : address) (l : list details) :
  NoDup (map PtrDetails.memPtr l) ->
  count_of x (filter live l) =
  match count_of x l with
  | Some c => if c =? 0 then None else Some c
  | None => None
  end.
Proof.
  induction l as [|p l IH]; simpl; intros ND; trivial.
  inversion ND as [|y ys Hy ND']; subst.
  unfold live at 1, dead.
  unfold count_of at 2; simpl.
  destruct (tracks x p) eqn:Ex; simpl.
  - destruct (PtrDetails.refcount p =? 0) eqn:E0; simpl.
    + apply count_of_absent. intros Hin. apply Hy.
      apply Z.eqb_eq in Ex. rewrite Ex.
      apply in_map_iff in Hin. destruct Hin as (m & <- & Hm).
      apply filter_In in Hm. apply in_map. tauto.
    + unfold count_of; simpl. now rewrite Ex.
  - destruct (PtrDetails.refcount p =? 0) eqn:E0; simpl.
    + now apply IH.
    + unfold count_of at 1; simpl. rewrite Ex. now apply IH.
Qed.

Lemma dead_after_release (a : address) (l : list details) :
  Forall (fun d => 0 < PtrDetails.refcount d) l ->
  filter dead (release a l) =
  match find (tracks a) l with
  | Some r => if PtrDetails.refcount r =? 1 then [decr r] else []
  | None => []
  end.
Proof.
  assert (Hnone : forall l', Forall (fun d => 0 < PtrDetails.refcount d) l' ->
                             filter dead l' = []).
  { induction l' as [|q l' IH']; simpl; intros F; trivial.
    inversion F; subst. unfold dead at 1.
    destruct (Z.eqb_spec (PtrDetails.refcount q) 0); [lia|]. auto. }
  induction l as [|p l IH]; simpl; intros F; trivial.
  inversion F as [|q qs Hp F']; subst.
  rewrite release_cons.
  destruct (tracks a p) eqn:Ea; simpl.
  - unfold dead at 1; simpl. rewrite (Hnone l F').
    destruct (Z.eqb_spec (PtrDetails.refcount p - 1) 0);
      destruct (Z.eqb_spec (PtrDetails.refcount p) 1); trivial; lia.
  - unfold dead at 1.
    destruct (Z.eqb_spec (PtrDetails.refcount p) 0); [lia|]. auto.
Qed.

(** ** The list invariant *)

Lemma well_formed_release_sweep (a : address) (l : list details) :
  well_formed l -> well_formed (filter live (release a l)).
Proof.
  intros [ND F]. split.
  - apply NoDup_map_filter. now rewrite memPtr_release.
  - apply Forall_forall. intros d Hd. apply filter_In in Hd.
    destruct Hd as [Hin Hlive].
    assert (H0 : 0 <= PtrDetails.refcount d).
    { clear Hlive ND. revert Hin.
      induction l as [|p l IH]; simpl; [tauto|].
      inversion F; subst. rewrite release_cons.
      destruct (tracks a p); simpl.
      - intros [<-|Hin]; [simpl; lia|].
        rewrite Forall_forall in H2. specialize (H2 d Hin). lia.
      - intros [<-|Hin]; [lia|]. now apply IH. }
    unfold live, dead in Hlive.
    destruct (Z.eqb_spec (PtrDetails.refcount d) 0); [discriminate|lia].
Qed.

Lemma well_formed_sweep (l : list details) :
  well_formed l -> well_formed (filter live l).
Proof.
  intros [ND F]. split.
  - now apply NoDup_map_filter.
  - apply Forall_forall. intros d Hd. apply filter_In in Hd.
    rewrite Forall_forall in F. apply F. tauto.
Qed.

Lemma memPtr_retain (size : Z) (a : address) (l : list details) :
  map PtrDetails.memPtr (retain size a l) =
  map PtrDetails.memPtr l ++ (if existsb (tracks a) l then [] else [a]).
Proof.
  induction l as [|p l IH]; trivial.
  rewrite retain_cons. simpl.
  destruct (tracks a p); simpl.
  - now rewrite app_nil_r.
  - now rewrite IH.
Qed.

Lemma positive_retain (size : Z) (a : address) (l : list details) :
  Forall (fun d => 0 < PtrDetails.refcount d) l ->
  Forall (fun d => 0 < PtrDetails.refcount d) (retain size a l).
Proof.
  induction l as [|p l IH]; intros F.
  - unfold retain; simpl. repeat constructor.
  - rewrite retain_cons. inversion F; subst.
    destruct (tracks a p); constructor; simpl; auto; lia.
Qed.

Lemma NoDup_snoc {A : Type} (x : A) (l : list A) :
  NoDup l -> ~ In x l -> NoDup (l ++ [x]).
Proof.
  induction l as [|y l IH]; simpl; intros ND Hx.
  - repeat constructor. tauto.
  - inversion ND; subst. constructor.
    + rewrite in_app_iff. simpl. intros [H|[H|[]]]; [tauto|].
      apply Hx. now left.
    + apply IH; tauto.
Qed.

Lemma existsb_tracks (a : address) (l : list details) :
  existsb (tracks a) l = false -> ~ In a (map PtrDetails.memPtr l).
Proof.
  induction l as [|p l IH]; simpl; [tauto|].
  unfold tracks at 1.
  destruct (Z.eqb_spec (PtrDetails.memPtr p) a); simpl; [discriminate|].
  intros H [E|Hin]; [tauto|]. now apply IH.
Qed.

Lemma well_formed_retain (size : Z) (a : address) (l : list details) :
  well_formed l -> well_formed (retain size a l).
Proof.
  intros [ND F]. split; [|now apply positive_retain].
  rewrite memPtr_retain.
  destruct (existsb (tracks a) l) eqn:E.
  - now rewrite app_nil_r.
  - apply NoDup_snoc; trivial. now apply existsb_tracks.
Qed.

(** ** What each operation does to the list and to the log *)

Lemma refContainer_dtor (this : Pointer) (g : GC) :
  refContainer (Pointer_dtor this g) =
  filter live (release (addr this) (refContainer g)).
Proof. unfold Pointer_dtor. now rewrite collect_spec. Qed.

Lemma freed_dtor (this : Pointer) (g : GC) :
  freed (Pointer_dtor this g) =
  freed g ++
  map delete_of (filter dead (release (addr this) (refContainer g))).
Proof. unfold Pointer_dtor. now rewrite collect_spec. Qed.

Lemma removePointer_dtor (this : Pointer) (ptr : address) (g : GC) :
  removePointer this ptr g = Pointer_dtor this g.
Proof. reflexivity. Qed.

Lemma refContainer_ctor (size : Z) (t : address) (g : GC) :
  refContainer (snd (Pointer_ctor size t g)) = retain size t (refContainer g).
Proof. reflexivity. Qed.

Lemma freed_ctor (size : Z) (t : address) (g : GC) :
  freed (snd (Pointer_ctor size t g)) = freed g.
Proof. reflexivity. Qed.

Lemma refContainer_assign_ptr (size : Z) (this : Pointer) (t : address)
  (g : GC) :
  refContainer (snd (assign_ptr size this t g)) =
  retain size t (refContainer (Pointer_dtor this g)).
Proof. reflexivity. Qed.

Lemma freed_assign_ptr (size : Z) (this : Pointer) (t : address) (g : GC) :
  freed (snd (assign_ptr size this t g)) = freed (Pointer_dtor this g).
Proof. reflexivity. Qed.

Lemma well_formed_dtor (this : Pointer) (g : GC) :
  well_formed (refContainer g) ->
  well_formed (refContainer (Pointer_dtor this g)).
Proof. rewrite refContainer_dtor. apply well_formed_release_sweep. Qed.

Lemma step_well_formed (size : Z) (g g' : GC) :
  step size g g' ->
  well_formed (refContainer g) -> well_formed (refContainer g').
Proof.
  intros [t|raw|this t|this| |] W.
  - rewrite refContainer_ctor. now apply well_formed_retain.
  - unfold Pointer_default.
    destruct (Pointer_ctor size nullptr g) as [tmp g1] eqn:E. simpl.
    apply well_formed_dtor.
    change g1 with (snd (tmp, g1)). rewrite <- E, refContainer_ctor.
    now apply well_formed_retain.
  - rewrite refContainer_assign_ptr.
    apply well_formed_retain. now apply well_formed_dtor.
  - now apply well_formed_dtor.
  - rewrite collect_spec. simpl. now apply well_formed_sweep.
  - destruct (refContainer_shutdown_cases g) as [-> | ->]; trivial.
    split; constructor.
Qed.

(** In every state a program can reach there is one record per address
    and every count is positive. *)
Lemma reachable_well_formed (size : Z) (g : GC) :
  reachable size g -> well_formed (refContainer g).
Proof.
  induction 1 as [|g g' _ IH Hs].
  - split; constructor.
  - now apply (step_well_formed size g g').
Qed.

Lemma count_of_find (a : address) (l : list details) (r : details) :
  find (tracks a) l = Some r -> count_of a l = Some (PtrDetails.refcount r).
Proof. unfold count_of. now intros ->. Qed.

Lemma count_of_positive (a : address) (l : list details) (c : Z) :
  Forall (fun d => 0 < PtrDetails.refcount d) l ->
  count_of a l = Some c -> 0 < c.
Proof.
  unfold count_of. intros F H.
  destruct (find (tracks a) l) as [r|] eqn:E; [|discriminate].
  apply find_some in E. rewrite Forall_forall in F.
  injection H as <-. apply F. tauto.
Qed.

(** The held record after a destructor (or [removePointer]): the count
    drops by one; from 1 the record is deleted and erased, and nothing
    else is. *)
Lemma dtor_releases (this : Pointer) (g : GC) (r : details) :
  well_formed (refContainer g) ->
  find (tracks (addr this)) (refContainer g) = Some r ->
  count_of (addr this) (refContainer (Pointer_dtor this g)) =
    (if PtrDetails.refcount r =? 1 then None
     else Some (PtrDetails.refcount r - 1)) /\
  freed (Pointer_dtor this g) =
    freed g ++ (if PtrDetails.refcount r =? 1 then [delete_of r] else []) /\
  forall x, x <> addr this ->
    count_of x (refContainer (Pointer_dtor this g)) =
    count_of x (refContainer g).
Proof.
  intros [ND F] Hr.
  pose proof (count_of_find _ _ _ Hr) as Hc.
  assert (Hpos : 0 < PtrDetails.refcount r)
    by (eapply count_of_positive; eauto).
  rewrite refContainer_dtor, freed_dtor.
  rewrite dead_after_release by assumption. rewrite Hr.
  repeat split.
  - rewrite count_of_sweep by now rewrite memPtr_release.
    rewrite count_of_release, Z.eqb_refl, Hc. simpl.
    destruct (Z.eqb_spec (PtrDetails.refcount r - 1) 0);
      destruct (Z.eqb_spec (PtrDetails.refcount r) 1); trivial; lia.
  - now destruct (PtrDetails.refcount r =? 1).
  - intros x Hx.
    rewrite count_of_sweep by now rewrite memPtr_release.
    rewrite count_of_release.
    destruct (Z.eqb_spec x (addr this)); [tauto|].
    destruct (count_of x (refContainer g)) as [c|] eqn:Ex; trivial.
    pose proof (count_of_positive _ _ _ F Ex).
    destruct (Z.eqb_spec c 0); [lia|trivial].
Qed.

(** ** Assignment of a raw address *)

(** C5: a handle holds [A], whose record [r] is in a well-formed list, and
    is assigned the raw address [B].  The assignment returns [B] and the
    handle holds [B].  [removePointer] takes one off the count of [A]; when
    that reaches zero (the count was 1) the record of [A] is deleted, by the
    form it records, and erased within the assignment, and nothing else is
    deleted.  Then the count of [B] is one more than before, or 1 when [B]
    had no record.  When [A] and [B] are the same address the record found
    for [B] is the one just released: the count is as before, or the record
    is created anew with count 1 after the deletion. *)
Theorem assign_ptr_moves_count (size : Z) (this : Pointer) (B : address)
  (g : GC) (r : details) :
  well_formed (refContainer g) ->
  find (tracks (addr this)) (refContainer g) = Some r ->
  let A := addr this in
  let c := PtrDetails.refcount r in
  let mid := removePointer this A g in
  let res := assign_ptr size this B g in
  fst (fst res) = B /\
  addr (snd (fst res)) = B /\
  count_of A (refContainer mid) = (if c =? 1 then None else Some (c - 1)) /\
  freed mid = freed g ++ (if c =? 1 then [delete_of r] else []) /\
  freed (snd res) = freed mid /\
  count_of B (refContainer (snd res)) =
    Some (match count_of B (refContainer mid) with
          | Some d => d + 1
          | None => 1
          end) /\
  (A <> B ->
   count_of A (refContainer (snd res)) =
     (if c =? 1 then None else Some (c - 1)) /\
   count_of B (refContainer (snd res)) =
     Some (match count_of B (refContainer g) with
           | Some d => d + 1
           | None => 1
           end)) /\
  (A = B ->
   count_of B (refContainer (snd res)) = Some (if c =? 1 then 1 else c)).
Proof.
  intros W Hr A c mid res.
  destruct (dtor_releases this g r W Hr) as (Hc & Hf & Hx).
  subst mid res. rewrite removePointer_dtor.
  rewrite refContainer_assign_ptr, freed_assign_ptr.
  fold A c in Hc, Hf.
  split; [reflexivity|]. split; [reflexivity|].
  split; [exact Hc|]. split; [exact Hf|]. split; [reflexivity|].
  split; [|split].
  - now rewrite count_of_retain, Z.eqb_refl.
  - intros Hne. rewrite !count_of_retain, Z.eqb_refl.
    destruct (Z.eqb_spec A B); [tauto|].
    split; [exact Hc|].
    rewrite (Hx B) by (fold A; congruence). reflexivity.
  - intros <-. rewrite count_of_retain, Z.eqb_refl, Hc.
    destruct (c =? 1); f_equal. lia.
Qed.

Lemma assign_ptr_moves_count_witness :
  let g := {| refContainer := [PtrDetails.mk 1 100 false 0;
                               PtrDetails.mk 2 200 false 0];
              first := false; atexit := 1%nat; freed := [] |} in
  let res := assign_ptr 0 (mkPointer 100 false 0) 200 g in
  count_of 100 (refContainer (snd res)) = None /\
  count_of 200 (refContainer (snd res)) = Some 3 /\
  freed (snd res) = [DeleteScalar 100].
Proof.
  intros g res.
  assert (W : well_formed (refContainer g)).
  { split; simpl; repeat constructor; simpl; lia. }
  destruct (assign_ptr_moves_count 0 (mkPointer 100 false 0) 200 g
              (PtrDetails.mk 1 100 false 0) W eq_refl)
    as (_ & _ & _ & H4 & H5 & _ & H7 & _).
  destruct H7 as [H7a H7b]; [discriminate|].
  split; [exact H7a|]. split; [exact H7b|].
  subst res. rewrite H5. exact H4.
Defined.

(** ** The null address *)

Lemma findPtrInfo_absent (a : address) (l : list details) :
  findPtrInfo a l = None <-> ~ In a (map PtrDetails.memPtr l).
Proof.
  induction l as [|p l IH]; simpl; [tauto|].
  destruct (Z.eqb_spec (PtrDetails.memPtr p) a) as [E|E].
  - split; [discriminate | tauto].
  - destruct (findPtrInfo a l); simpl in *.
    + split; [discriminate|]. intros H. exfalso.
      assert (H' : ~ In a (map PtrDetails.memPtr l)) by tauto.
      apply IH in H'. discriminate.
    + split; trivial. intros _ [H|H]; [tauto|]. now apply IH in H.
Qed.

(** C3, amended: the null address is registered and looked up like any
    other address.  A lookup of null finds nothing exactly when no record
    has the null address; constructing a handle from null leaves the handle
    holding null and the list with a record for null, whose count is one
    more than before, or 1 when there was none; destroying a handle that
    holds null takes one off that count and, from 1, deletes and erases the
    record. *)
Theorem null_is_an_ordinary_address (size : Z) (g : GC) :
  (findPtrInfo nullptr (refContainer g) = None <->
   ~ In nullptr (map PtrDetails.memPtr (refContainer g))) /\
  addr (fst (Pointer_ctor size nullptr g)) = nullptr /\
  count_of nullptr (refContainer (snd (Pointer_ctor size nullptr g))) =
    Some (match count_of nullptr (refContainer g) with
          | Some c => c + 1
          | None => 1
          end) /\
  forall (this : Pointer) (r : details),
    addr this = nullptr ->
    well_formed (refContainer g) ->
    find (tracks nullptr) (refContainer g) = Some r ->
    count_of nullptr (refContainer (Pointer_dtor this g)) =
      (if PtrDetails.refcount r =? 1 then None
       else Some (PtrDetails.refcount r - 1)) /\
    freed (Pointer_dtor this g) =
      freed g ++ (if PtrDetails.refcount r =? 1 then [delete_of r] else []).
Proof.
  split; [apply findPtrInfo_absent|].
  split; [reflexivity|]. split.
  - now rewrite refContainer_ctor, count_of_retain, Z.eqb_refl.
  - intros this r Ha W Hr. rewrite <- Ha in Hr.
    destruct (dtor_releases this g r W Hr) as (Hc & Hf & _).
    rewrite <- Ha at 1. now split.
Qed.

Lemma null_is_an_ordinary_address_witness :
  let g := snd (Pointer_ctor 0 nullptr initial) in
  count_of nullptr (refContainer g) = Some 1 /\
  count_of nullptr (refContainer (Pointer_dtor (mkPointer 0 false 0) g))
    = None /\
  freed (Pointer_dtor (mkPointer 0 false 0) g) = [DeleteScalar 0].
Proof.
  intros g.
  pose proof (null_is_an_ordinary_address 0 initial) as (_ & _ & H3 & _).
  pose proof (null_is_an_ordinary_address 0 g) as (_ & _ & _ & H4).
  assert (W : well_formed (refContainer g)).
  { split; simpl; repeat constructor; simpl; try lia; tauto. }
  destruct (H4 (mkPointer 0 false 0) (PtrDetails.make nullptr 0)
              eq_refl W eq_refl) as [Hc Hf].
  split; [exact H3|]. split; [exact Hc| exact Hf].
Defined.

(** C3, counterexample: on the initial state, constructing a handle from
    the null address inserts a record for null; a lookup of null then
    matches that record; destroying the handle takes its count to zero and
    the sweep deletes and erases it.  Default construction does not leave
    the state of a construction from null: its list is empty again and its
    log holds the deletion of the temporary's record. *)
Lemma null_record_is_matched_and_swept :
  refContainer (snd (Pointer_ctor 0 nullptr initial)) =
    [PtrDetails.make nullptr 0] /\
  findPtrInfo nullptr (refContainer (snd (Pointer_ctor 0 nullptr initial))) =
    Some 0%nat /\
  refContainer (Pointer_dtor (fst (Pointer_ctor 0 nullptr initial))
                  (snd (Pointer_ctor 0 nullptr initial))) = [] /\
  freed (Pointer_dtor (fst (Pointer_ctor 0 nullptr initial))
           (snd (Pointer_ctor 0 nullptr initial))) = [DeleteScalar nullptr] /\
  snd (Pointer_default 0 (mkPointer 77 true 9) initial) <>
    snd (Pointer_ctor 0 nullptr initial) /\
  fst (Pointer_default 0 (mkPointer 77 true 9) initial) <>
    fst (Pointer_ctor 0 nullptr initial).
Proof.
  repeat split; try reflexivity; discriminate.
Qed.

(** ** Array shape of the records *)

Lemma shape_kept_refl (size : Z) (l : list details) : shape_kept size l l.
Proof. intros d Hd. left. now exists d. Qed.

Lemma shape_kept_trans (size : Z) (l1 l2 l3 : list details) :
  shape_kept size l1 l2 -> shape_kept size l2 l3 -> shape_kept size l1 l3.
Proof.
  intros H12 H23 d3 H3.
  destruct (H23 d3 H3) as [(d2 & H2 & E)|E]; [|now right].
  destruct (H12 d2 H2) as [(d1 & H1 & E1)|E1].
  - left. exists d1. split; trivial. congruence.
  - right. unfold shape_of in E. unfold has_shape in *.
    injection E as _ -> ->. exact E1.
Qed.

Lemma release_shape (a : address) (l : list details) (d' : details) :
  In d' (release a l) -> exists d, In d l /\ shape_of d' = shape_of d.
Proof.
  induction l as [|p l IH]; [intros []|].
  rewrite release_cons.
  destruct (tracks a p); intros [<-|Hd].
  - exists p. split; [now left | reflexivity].
  - exists d'. split; [now right | reflexivity].
  - exists p. split; [now left | reflexivity].
  - destruct (IH Hd) as (d0 & H0 & E).
    exists d0. split; [now right | exact E].
Qed.

Lemma retain_shape (size : Z) (a : address) (l : list details)
  (d' : details) :
  In d' (retain size a l) ->
  (exists d, In d l /\ shape_of d' = shape_of d) \/
  d' = PtrDetails.make a size.
Proof.
  induction l as [|p l IH].
  - unfold retain; simpl. intros [<-|[]]. now right.
  - rewrite retain_cons.
    destruct (tracks a p); intros [<-|Hd].
    + left. exists p. split; [now left | reflexivity].
    + left. exists d'. split; [now right | reflexivity].
    + left. exists p. split; [now left | reflexivity].
    + destruct (IH Hd) as [(d0 & H0 & E)|E]; [left|now right].
      exists d0. split; [now right | exact E].
Qed.

Lemma has_shape_make (size : Z) (a : address) :
  has_shape size (PtrDetails.make a size).
Proof. now split. Qed.

Lemma shape_kept_release (size : Z) (a : address) (l : list details) :
  shape_kept size l (release a l).
Proof. intros d Hd. left. now apply (release_shape a). Qed.

Lemma shape_kept_retain (size : Z) (a : address) (l : list details) :
  shape_kept size l (retain size a l).
Proof.
  intros d Hd. destruct (retain_shape size a l d Hd) as [H| ->].
  - now left.
  - right. apply has_shape_make.
Qed.

Lemma shape_kept_filter (size : Z) (f : details -> bool) (l : list details) :
  shape_kept size l (filter f l).
Proof.
  intros d Hd. left. exists d. apply filter_In in Hd. tauto.
Qed.

Lemma shape_kept_dtor (size : Z) (this : Pointer) (g : GC) :
  shape_kept size (refContainer g) (refContainer (Pointer_dtor this g)).
Proof.
  rewrite refContainer_dtor.
  eapply shape_kept_trans; [apply shape_kept_release|apply shape_kept_filter].
Qed.

Lemma shape_kept_assign_ptr (size : Z) (this : Pointer) (t : address)
  (g : GC) :
  shape_kept size (refContainer g)
    (refContainer (snd (assign_ptr size this t g))).
Proof.
  rewrite refContainer_assign_ptr.
  eapply shape_kept_trans; [apply shape_kept_dtor|apply shape_kept_retain].
Qed.

Lemma step_shape_kept (size : Z) (g g' : GC) :
  step size g g' -> shape_kept size (refContainer g) (refContainer g').
Proof.
  intros [t|raw|this t|this| |].
  - rewrite refContainer_ctor. apply shape_kept_retain.
  - unfold Pointer_default.
    destruct (Pointer_ctor size nullptr g) as [tmp g1] eqn:E. simpl.
    eapply shape_kept_trans; [|apply shape_kept_dtor].
    change g1 with (snd (tmp, g1)). rewrite <- E, refContainer_ctor.
    apply shape_kept_retain.
  - apply shape_kept_assign_ptr.
  - apply shape_kept_dtor.
  - rewrite collect_spec. simpl. apply shape_kept_filter.
  - destruct (refContainer_shutdown_cases g) as [-> | ->].
    + apply shape_kept_refl.
    + intros d [].
Qed.

Lemma shape_kept_invariant (size : Z) (l l' : list details) :
  shape_kept size l l' ->
  Forall (has_shape size) l -> Forall (has_shape size) l'.
Proof.
  intros K F. apply Forall_forall. intros d' Hd'.
  destruct (K d' Hd') as [(d & Hd & E)|H]; trivial.
  rewrite Forall_forall in F. specialize (F d Hd).
  unfold shape_of in E. unfold has_shape in *.
  injection E as _ -> ->. exact F.
Qed.

(** C10: in an instantiation with argument [size], (1) [addPointer] does
    not depend on its [length] argument, and the record it inserts for an
    address not yet in the list is the one made from [size]: an array of
    [size] elements when [size] is greater than zero, a scalar otherwise;
    (2) no operation changes the address, array flag or element count of a
    record: every record after an operation has those of a record before
    it, or the shape the instantiation gives a new record; (3) in every
    reachable state, every record has that one shape. *)
Theorem record_shape_is_fixed (size : Z) :
  (forall this ptr len len' g,
     addPointer size this ptr len g = addPointer size this ptr len' g) /\
  (forall this ptr len g,
     findPtrInfo ptr (refContainer g) = None ->
     refContainer (snd (addPointer size this ptr len g)) =
       refContainer g ++
       [{| PtrDetails.refcount := 1; PtrDetails.memPtr := ptr;
           PtrDetails.isArray := 0 <? size;
           PtrDetails.arraySize := size |}]) /\
  (forall g g',
     step size g g' ->
     shape_kept size (refContainer g) (refContainer g')) /\
  (forall g,
     reachable size g -> Forall (has_shape size) (refContainer g)).
Proof.
  split; [reflexivity|]. split; [|split].
  - intros this ptr len g H. simpl. unfold retain. now rewrite H.
  - apply step_shape_kept.
  - induction 1 as [|g g' _ IH Hs]; [constructor|].
    eapply shape_kept_invariant; [apply step_shape_kept|]; eassumption.
Qed.

Lemma record_shape_is_fixed_witness :
  let g := snd (assign_ptr 5 (mkPointer 100 true 5) 200
                  (snd (Pointer_ctor 5 100 initial))) in
  refContainer g = [PtrDetails.mk 1 200 true 5] /\
  Forall (has_shape 5) (refContainer g).
Proof.
  intros g. split; [reflexivity|].
  apply (proj2 (proj2 (proj2 (record_shape_is_fixed 5)))).
  apply reach_step with (g := snd (Pointer_ctor 5 100 initial)).
  - apply reach_step with (g := initial); constructor.
  - constructor.
Defined.

(** ** Range views *)

Lemma to_int_small (z : Z) : 0 <= z < 2 ^ 31 -> to_int z = z.
Proof.
  intros H. unfold to_int.
  rewrite Z.mod_small by lia.
  destruct (Z.ltb_spec z (2 ^ 31)); lia.
Qed.

Lemma advance_iter (k : nat) (p lo hi : address) :
  Nat.iter k Iter.advance (Iter.mk p lo hi) = Iter.mk (p + Z.of_nat k) lo hi.
Proof.
  induction k as [|k IH].
  - simpl. now rewrite Z.add_0_r.
  - rewrite Nat.iter_succ, IH. unfold Iter.advance. simpl.
    f_equal. lia.
Qed.

Lemma traverse_step (fuel : nat) (it e : Iter.t) :
  Iter.traverse (S fuel) it e =
  if Iter.eqb it e then Iter.Yields []
  else match Iter.deref it with
       | Iter.OutOfRangeExc => Iter.Throws []
       | Iter.Element p =>
           Iter.cons_element p (Iter.traverse fuel (Iter.advance it) e)
       end.
Proof. reflexivity. Qed.

Lemma traverse_span (k : nat) :
  forall p lo hi : address,
  lo <= p -> p + Z.of_nat k = hi ->
  Iter.traverse (S k) (Iter.mk p lo hi) (Iter.mk hi lo hi) =
  Iter.Yields (map (fun i => p + Z.of_nat i) (seq 0 k)).
Proof.
  induction k as [|k IH]; intros p lo hi Hlo Hhi.
  - simpl. unfold Iter.eqb; simpl.
    replace hi with p by lia. now rewrite Z.eqb_refl.
  - rewrite traverse_step. unfold Iter.eqb, Iter.deref. cbn [Iter.ptr
      Iter.lower Iter.upper].
    destruct (Z.eqb_spec p hi); [lia|].
    destruct (Z.leb_spec hi p); [lia|].
    destruct (Z.ltb_spec p lo); [lia|]. cbn [orb].
    unfold Iter.advance. cbn [Iter.ptr Iter.lower Iter.upper].
    rewrite (IH (p + 1) lo hi) by lia.
    cbn [Iter.cons_element seq map]. f_equal.
    rewrite Z.add_0_r. f_equal.
    rewrite <- seq_shift, map_map.
    apply map_ext. intros i. lia.
Qed.

(** X17: for a handle whose members say scalar ([isArray] false) the range
    view from [begin] to [end] has one element, for a handle whose members
    say array of [K] elements ([K] fitting an [int]) it has [K]: the
    traversal yields the addresses [addr], [addr + 1], ..., in this order
    and without error; each of them can be dereferenced; advancing [K]
    times from [begin] gives [end], while dereferencing [end], or any view
    at or beyond its upper bound, signals the out-of-range error. *)
Theorem range_view_spans_allocation (this : Pointer) (K : nat) :
  (isArray this = false /\ K = 1%nat) \/
  (isArray this = true /\ arraySize this = Z.of_nat K /\
   Z.of_nat K < 2 ^ 31) ->
  Iter.traverse (S K) (begin this) (end_ this) =
    Iter.Yields (map (fun i => addr this + Z.of_nat i) (seq 0 K)) /\
  length (map (fun i => addr this + Z.of_nat i) (seq 0 K)) = K /\
  (forall i, (i < K)%nat ->
     Iter.deref (Nat.iter i Iter.advance (begin this)) =
     Iter.Element (addr this + Z.of_nat i)) /\
  Nat.iter K Iter.advance (begin this) = end_ this /\
  Iter.deref (end_ this) = Iter.OutOfRangeExc /\
  (forall it, Iter.upper it <= Iter.ptr it ->
     Iter.deref it = Iter.OutOfRangeExc).
Proof.
  intros H.
  assert (Hs : (if isArray this then to_int (arraySize this) else 1) =
               Z.of_nat K).
  { destruct H as [[-> ->]|(-> & -> & Hk)]; [reflexivity|].
    apply to_int_small. lia. }
  unfold begin, end_. rewrite Hs.
  split; [apply traverse_span; lia|].
  split; [now rewrite length_map, length_seq|].
  split; [|split; [apply advance_iter|split]].
  - intros i Hi. rewrite advance_iter. unfold Iter.deref; simpl.
    destruct (Z.leb_spec (addr this + Z.of_nat K) (addr this + Z.of_nat i));
      [lia|].
    destruct (Z.ltb_spec (addr this + Z.of_nat i) (addr this)); [lia|].
    reflexivity.
  - unfold Iter.deref; simpl. now rewrite Z.leb_refl.
  - intros it Hit. unfold Iter.deref.
    destruct (Z.leb_spec (Iter.upper it) (Iter.ptr it)); [reflexivity|lia].
Qed.

Lemma range_view_spans_allocation_witness :
  let this := fst (Pointer_ctor 5 100 initial) in
  Iter.traverse 6 (begin this) (end_ this) =
    Iter.Yields [100; 101; 102; 103; 104] /\
  Iter.deref (end_ this) = Iter.OutOfRangeExc.
Proof.
  intros this.
  destruct (range_view_spans_allocation this 5) as (H1 & _ & _ & _ & H5 & _).
  - right. repeat split.
  - split; [exact H1 | exact H5].
Defined.

(** A handle built by [Pointer(T *t)] in an instantiation with [size]
    elements, [size] fitting an [int], views [size] elements when [size]
    is positive and one element otherwise. *)
Lemma Pointer_ctor_view (size : Z) (t : address) (g : GC) :
  - 2 ^ 31 <= size < 2 ^ 31 ->
  let this := fst (Pointer_ctor size t g) in
  (isArray this = false /\ size <= 0) \/
  (isArray this = true /\ arraySize this = size /\ 0 < size < 2 ^ 31).
Proof.
  intros H this. subst this. simpl.
  destruct (Z.ltb_spec 0 size); [right|left; split; trivial].
  split; trivial. split; [|lia].
  unfold to_unsigned. apply Z.mod_small. lia.
Qed.

(** The view of a handle that was default-constructed and then assigned
    an address follows what the storage of the handle held, not the
    instantiation: the default constructor writes no member and the
    assignment writes [addr] only. *)
Lemma default_then_assigned_view (size : Z) (raw : Pointer) (t : address)
  (g : GC) :
  let p := fst (Pointer_default size raw g) in
  let p' := snd (fst (assign_ptr size p t (snd (Pointer_default size raw g)))) in
  let span := if isArray raw then to_int (arraySize raw) else 1 in
  p = raw /\
  begin p' = Iter.mk t t (t + span) /\
  end_ p' = Iter.mk (t + span) t (t + span).
Proof.
  unfold Pointer_default.
  destruct (Pointer_ctor size nullptr g) as [tmp g1]. simpl.
  repeat split.
Qed.

(** C9, at a failing input: in the instantiation with [size = 5], a handle
    is default-constructed in storage that holds [isArray = true] and
    [arraySize = 9], and is then assigned the address 100 of an array of 5.
    The record inserted for 100 is an array of 5, but the traversal from
    [begin] to [end] yields the nine addresses 100 to 108, and the view at
    position 5, the upper bound of the allocation, is dereferenced without
    error.  In storage that holds [isArray = false] the same handle views
    the single address 100. *)
Theorem unset_members_decide_the_view :
  let made := Pointer_default 5 (mkPointer 77 true 9) initial in
  let res := assign_ptr 5 (fst made) 100 (snd made) in
  let p := snd (fst res) in
  let made0 := Pointer_default 5 (mkPointer 0 false 0) initial in
  let p0 := snd (fst (assign_ptr 5 (fst made0) 100 (snd made0))) in
  refContainer (snd res) = [PtrDetails.mk 1 100 true 5] /\
  Iter.traverse 10 (begin p) (end_ p) =
    Iter.Yields [100; 101; 102; 103; 104; 105; 106; 107; 108] /\
  Iter.deref (Nat.iter 5 Iter.advance (begin p)) = Iter.Element 105 /\
  Iter.traverse 10 (begin p0) (end_ p0) = Iter.Yields [100].
Proof. repeat split. Qed.

(** * Further properties of the operations *)

(** ** Static members *)

Lemma statics_dtor (this : Pointer) (g : GC) :
  first (Pointer_dtor this g) = first g /\
  atexit (Pointer_dtor this g) = atexit g.
Proof. unfold Pointer_dtor. now rewrite collect_spec. Qed.

Lemma statics_assign_ptr (size : Z) (this : Pointer) (t : address) (g : GC) :
  first (snd (assign_ptr size this t g)) = first g /\
  atexit (snd (assign_ptr size this t g)) = atexit g.
Proof. exact (statics_dtor this g). Qed.

Lemma statics_shutdown (g : GC) :
  first (shutdown g) = first g /\ atexit (shutdown g) = atexit g.
Proof.
  destruct (shutdown_cases g) as [-> | ->]; [now split|].
  rewrite collect_spec. now split.
Qed.

Lemma step_registration (size : Z) (g g' : GC) :
  step size g g' ->
  atexit g = (if first g then 0 else 1)%nat ->
  atexit g' = (if first g' then 0 else 1)%nat.
Proof.
  intros [t|raw|this t|this| |] H.
  - simpl. rewrite H. now destruct (first g).
  - unfold Pointer_default.
    destruct (Pointer_ctor size nullptr g) as [tmp g1] eqn:E. cbn [snd].
    destruct (statics_dtor tmp g1) as [-> ->].
    change g1 with (snd (tmp, g1)). rewrite <- E. simpl.
    rewrite H. now destruct (first g).
  - now destruct (statics_assign_ptr size this t g) as [-> ->].
  - now destruct (statics_dtor this g) as [-> ->].
  - rewrite collect_spec. exact H.
  - now destruct (statics_shutdown g) as [-> ->].
Qed.

(** X2: [shutdown] is registered with [atexit] at most once: in every
    reachable state it has been registered exactly once when [first] is
    false and not at all while [first] is still true. *)
Theorem shutdown_registered_once (size : Z) (g : GC) :
  reachable size g ->
  atexit g = (if first g then 0 else 1)%nat.
Proof.
  induction 1 as [|g g' _ IH Hs]; [reflexivity|].
  now apply (step_registration size g g').
Qed.

Lemma shutdown_registered_once_witness :
  let g := snd (Pointer_ctor 0 200 (snd (Pointer_ctor 0 100 initial))) in
  first g = false /\ atexit g = 1%nat.
Proof.
  intros g. split; [reflexivity|].
  apply (shutdown_registered_once 0 g).
  apply reach_step with (g := snd (Pointer_ctor 0 100 initial)).
  - apply reach_step with (g := initial); constructor.
  - constructor.
Defined.

(** X1: in every state a program can reach, no two records of the list
    have the same address and every count is positive; so a lookup of an
    address has at most one record to find, and no record waits with count
    zero for a later sweep. *)
Theorem one_live_record_per_address (size : Z) (g : GC) :
  reachable size g ->
  NoDup (map PtrDetails.memPtr (refContainer g)) /\
  Forall (fun d => 0 < PtrDetails.refcount d) (refContainer g) /\
  (forall a, (length (records_at a (refContainer g)) <= 1)%nat) /\
  filter dead (refContainer g) = [].
Proof.
  intros R. destruct (reachable_well_formed size g R) as [ND F].
  split; [exact ND|]. split; [exact F|]. split.
  - intros a. clear F. unfold records_at.
    induction (refContainer g) as [|p l IH]; simpl; [lia|].
    inversion ND as [|x xs Hx ND']; subst.
    destruct (tracks a p) eqn:E; [|now apply IH].
    replace (filter (tracks a) l) with (@nil details); [simpl; lia|].
    symmetry. apply findPtrInfo_None, findPtrInfo_absent.
    unfold tracks in E. apply Z.eqb_eq in E. now rewrite <- E.
  - clear ND. induction F as [|p l Hp F IH]; simpl; trivial.
    unfold dead at 1.
    destruct (Z.eqb_spec (PtrDetails.refcount p) 0); [lia|exact IH].
Qed.

Lemma one_live_record_per_address_witness :
  let g := Pointer_dtor (mkPointer 100 false 0)
             (snd (Pointer_ctor 0 200 (snd (Pointer_ctor 0 100 initial)))) in
  refContainer g = [PtrDetails.mk 1 200 false 0] /\
  NoDup (map PtrDetails.memPtr (refContainer g)).
Proof.
  intros g. split; [reflexivity|].
  apply (one_live_record_per_address 0 g).
  apply reach_step
    with (g := snd (Pointer_ctor 0 200 (snd (Pointer_ctor 0 100 initial)))).
  - apply reach_step with (g := snd (Pointer_ctor 0 100 initial)).
    + apply reach_step with (g := initial); constructor.
    + constructor.
  - constructor.
Defined.

(** ** Lookup *)

(** X3: [findPtrInfo] returns the position of the first record whose
    address is the one looked up: the record there has that address and no
    record before it has; it returns [end()] exactly when no record has
    it. *)
Theorem findPtrInfo_first_match (a : address) (l : list details) :
  match findPtrInfo a l with
  | Some i =>
      exists d, nth_error l i = Some d /\ PtrDetails.memPtr d = a /\
                Forall (fun d' => PtrDetails.memPtr d' <> a) (firstn i l)
  | None => Forall (fun d => PtrDetails.memPtr d <> a) l
  end.
Proof.
  induction l as [|p l IH]; simpl; [constructor|].
  destruct (Z.eqb_spec (PtrDetails.memPtr p) a) as [E|E].
  - exists p. simpl. repeat split; trivial.
  - destruct (findPtrInfo a l) as [i|]; simpl.
    + destruct IH as (d & H1 & H2 & H3). exists d. simpl.
      repeat split; trivial. now constructor.
    + now constructor.
Qed.

(** ** Construction and destruction *)

Lemma length_retain (size : Z) (a : address) (l : list details) :
  length (retain size a l) =
  (length l + match count_of a l with Some _ => 0 | None => 1 end)%nat.
Proof.
  unfold count_of.
  induction l as [|p l IH]; [reflexivity|].
  rewrite retain_cons. simpl.
  destruct (tracks a p); simpl; [lia|]. now rewrite IH.
Qed.

(** X4: [Pointer(t)] leaves the handle holding [t], flagged as an array
    exactly when [size] is positive; it evaluates no [delete]; the count of
    [t] is one more than before, or 1 when [t] had no record, in which
    case the list is one record longer; the count of every other address
    is as before; [first] is false afterwards. *)
Theorem ctor_registers (size : Z) (t : address) (g : GC) :
  let this := fst (Pointer_ctor size t g) in
  let g' := snd (Pointer_ctor size t g) in
  addr this = t /\
  isArray this = (0 <? size) /\
  arraySize this = size mod 2 ^ 32 /\
  freed g' = freed g /\
  first g' = false /\
  count_of t (refContainer g') =
    Some (match count_of t (refContainer g) with
          | Some c => c + 1
          | None => 1
          end) /\
  (forall x, x <> t ->
     count_of x (refContainer g') = count_of x (refContainer g)) /\
  length (refContainer g') =
    (length (refContainer g) +
     match count_of t (refContainer g) with Some _ => 0 | None => 1 end)%nat.
Proof.
  intros this g'. subst this g'.
  repeat (split; [reflexivity|]).
  rewrite refContainer_ctor. split; [|split].
  - now rewrite count_of_retain, Z.eqb_refl.
  - intros x Hx. rewrite count_of_retain.
    destruct (Z.eqb_spec x t); [tauto|reflexivity].
  - apply length_retain.
Qed.

Lemma filter_live_positive (l : list details) :
  Forall (fun d => 0 < PtrDetails.refcount d) l -> filter live l = l.
Proof.
  induction 1 as [|p l Hp F IH]; simpl; trivial.
  unfold live at 1, dead.
  destruct (Z.eqb_spec (PtrDetails.refcount p) 0); [lia|]. simpl.
  now rewrite IH.
Qed.

Lemma filter_dead_positive (l : list details) :
  Forall (fun d => 0 < PtrDetails.refcount d) l -> filter dead l = [].
Proof.
  induction 1 as [|p l Hp F IH]; simpl; trivial.
  unfold dead at 1.
  destruct (Z.eqb_spec (PtrDetails.refcount p) 0); [lia|exact IH].
Qed.

Lemma collect_positive (g : GC) :
  Forall (fun d => 0 < PtrDetails.refcount d) (refContainer g) ->
  collect g = (false, g).
Proof.
  intros F. rewrite collect_spec.
  rewrite existsb_dead_filter, filter_dead_positive, filter_live_positive
    by assumption.
  simpl. rewrite app_nil_r. now destruct g.
Qed.

(** X9: on a list in which no count is zero (every count positive),
    [collect] returns [false] and changes nothing: no record is erased, no
    [delete] is evaluated. *)
Theorem collect_without_garbage (g : GC) :
  Forall (fun d => 0 < PtrDetails.refcount d) (refContainer g) ->
  collect g = (false, g).
Proof. apply collect_positive. Qed.

Lemma collect_without_garbage_witness :
  collect (snd (Pointer_ctor 3 100 initial)) =
  (false, snd (Pointer_ctor 3 100 initial)).
Proof.
  apply (collect_without_garbage (snd (Pointer_ctor 3 100 initial))).
  repeat constructor.
Defined.

Lemma dtor_absent (this : Pointer) (g : GC) :
  Forall (fun d => 0 < PtrDetails.refcount d) (refContainer g) ->
  findPtrInfo (addr this) (refContainer g) = None ->
  Pointer_dtor this g = g.
Proof.
  intros F H. unfold Pointer_dtor, release. rewrite H.
  replace (with_refContainer (refContainer g) g) with g by now destruct g.
  now rewrite collect_positive.
Qed.

(** X5: destroying a handle whose address has no record (a handle never
    registered, or holding an address already reclaimed) changes nothing
    on a well-formed list: no count moves, nothing is deleted. *)
Theorem dtor_of_untracked_address (this : Pointer) (g : GC) :
  well_formed (refContainer g) ->
  findPtrInfo (addr this) (refContainer g) = None ->
  Pointer_dtor this g = g.
Proof. intros [_ F]. now apply dtor_absent. Qed.

Lemma dtor_of_untracked_address_witness :
  Pointer_dtor (mkPointer 999 false 0) (snd (Pointer_ctor 0 100 initial)) =
  snd (Pointer_ctor 0 100 initial).
Proof.
  apply (dtor_of_untracked_address (mkPointer 999 false 0)
           (snd (Pointer_ctor 0 100 initial))).
  - split; simpl; repeat constructor; simpl; try lia; tauto.
  - reflexivity.
Defined.

Lemma dtor_frame (this : Pointer) (g : GC) (x : address) :
  well_formed (refContainer g) ->
  x <> addr this ->
  count_of x (refContainer (Pointer_dtor this g)) =
  count_of x (refContainer g).
Proof.
  intros [ND F] Hx. rewrite refContainer_dtor.
  rewrite count_of_sweep by now rewrite memPtr_release.
  rewrite count_of_release.
  destruct (Z.eqb_spec x (addr this)); [tauto|].
  destruct (count_of x (refContainer g)) as [c|] eqn:Ex; trivial.
  pose proof (count_of_positive _ _ _ F Ex).
  destruct (Z.eqb_spec c 0); [lia|trivial].
Qed.

(** X6: destroying a handle whose address has the record [r] in a
    well-formed list takes one off the count of that record; when the count
    was 1 the record is erased and one [delete] is evaluated for it, of the
    form [r] records, otherwise nothing is deleted; the list gets shorter
    by one exactly in the first case, and the count of every other address
    is as before. *)
Theorem dtor_releases_held_record (this : Pointer) (g : GC) (r : details) :
  well_formed (refContainer g) ->
  find (tracks (addr this)) (refContainer g) = Some r ->
  count_of (addr this) (refContainer (Pointer_dtor this g)) =
    (if PtrDetails.refcount r =? 1 then None
     else Some (PtrDetails.refcount r - 1)) /\
  freed (Pointer_dtor this g) =
    freed g ++ (if PtrDetails.refcount r =? 1 then [delete_of r] else []) /\
  (forall x, x <> addr this ->
     count_of x (refContainer (Pointer_dtor this g)) =
     count_of x (refContainer g)) /\
  (length (refContainer (Pointer_dtor this g)) +
   (if (PtrDetails.refcount r =? 1)%Z then 1 else 0) =
   length (refContainer g))%nat.
Proof.
  intros W Hr.
  destruct (dtor_releases this g r W Hr) as (Hc & Hf & Hx).
  split; [exact Hc|]. split; [exact Hf|]. split; [exact Hx|].
  destruct W as [ND F]. rewrite refContainer_dtor.
  pose proof (filter_length live (release (addr this) (refContainer g)))
    as HL.
  cbv beta in HL.
  assert (Hd : length (filter (fun d => negb (live d))
                         (release (addr this) (refContainer g))) =
               if PtrDetails.refcount r =? 1 then 1%nat else 0%nat).
  { replace (filter (fun d => negb (live d))
               (release (addr this) (refContainer g)))
      with (filter dead (release (addr this) (refContainer g))).
    - rewrite dead_after_release, Hr by assumption.
      now destruct (PtrDetails.refcount r =? 1).
    - apply filter_ext. intros d. unfold live. now rewrite negb_involutive. }
  rewrite Hd in HL.
  assert (Hlen : length (release (addr this) (refContainer g)) =
                 length (refContainer g)).
  { rewrite <- (length_map PtrDetails.memPtr), memPtr_release.
    apply length_map. }
  rewrite Hlen in HL. exact HL.
Qed.

Lemma dtor_releases_held_record_witness :
  let g := {| refContainer := [PtrDetails.mk 2 100 false 0];
              first := false; atexit := 1%nat; freed := [] |} in
  let this := mkPointer 100 false 0 in
  count_of 100 (refContainer (Pointer_dtor this g)) = Some 1 /\
  freed (Pointer_dtor this g) = [] /\
  count_of 100 (refContainer (Pointer_dtor this (Pointer_dtor this g)))
    = None /\
  freed (Pointer_dtor this (Pointer_dtor this g)) = [DeleteScalar 100].
Proof.
  intros g this.
  assert (W : well_formed (refContainer g))
    by (split; simpl; repeat constructor; simpl; try lia; tauto).
  assert (W1 : well_formed (refContainer (Pointer_dtor this g)))
    by (split; simpl; repeat constructor; simpl; try lia; tauto).
  destruct (dtor_releases_held_record this g (PtrDetails.mk 2 100 false 0)
              W eq_refl) as (H1 & H2 & _).
  destruct (dtor_releases_held_record this (Pointer_dtor this g)
              (PtrDetails.mk 1 100 false 0) W1 eq_refl) as (H3 & H4 & _).
  repeat split; assumption.
Defined.

Lemma GC_ext (g g' : GC) :
  refContainer g = refContainer g' -> first g = first g' ->
  atexit g = atexit g' -> freed g = freed g' -> g = g'.
Proof. destruct g, g'; simpl; intros; now subst. Qed.

Lemma decr_incr (p : details) : decr (incr p) = p.
Proof.
  destruct p as [c m a s]. unfold decr, incr, PtrDetails.with_refcount.
  simpl. f_equal. lia.
Qed.

(** Registering an address and releasing it again, followed by a sweep,
    gives the list back; the record is deleted when it was new. *)
Lemma retain_release_sweep (size : Z) (t : address) (l : list details) :
  Forall (fun d => 0 < PtrDetails.refcount d) l ->
  filter live (release t (retain size t l)) = l /\
  filter dead (release t (retain size t l)) =
    match count_of t l with
    | Some _ => []
    | None => [decr (PtrDetails.make t size)]
    end.
Proof.
  unfold count_of.
  induction 1 as [|p l Hp F IH].
  - unfold retain, release; simpl. now rewrite Z.eqb_refl.
  - rewrite retain_cons. simpl find.
    destruct (tracks t p) eqn:E.
    + rewrite release_cons, tracks_incr, E, decr_incr.
      assert (F' : Forall (fun d => 0 < PtrDetails.refcount d) (p :: l))
        by now constructor.
      split; [now apply filter_live_positive|].
      now rewrite filter_dead_positive.
    + rewrite release_cons, E. simpl.
      unfold live at 1, dead at 1 2.
      destruct (Z.eqb_spec (PtrDetails.refcount p) 0); [lia|]. simpl.
      destruct IH as [-> ->]. now split.
Qed.

(** X7: on a well-formed list, constructing a handle from [t] and then
    destroying it gives back the list as it was, record for record; the
    memory at [t] is deleted exactly when [t] had no record before (the
    handle was its only holder), by the form the instantiation gives its
    records, and nothing else is deleted. *)
Theorem ctor_then_dtor (size : Z) (t : address) (g : GC) :
  well_formed (refContainer g) ->
  let this := fst (Pointer_ctor size t g) in
  let g' := Pointer_dtor this (snd (Pointer_ctor size t g)) in
  refContainer g' = refContainer g /\
  freed g' =
    freed g ++ match count_of t (refContainer g) with
               | Some _ => []
               | None => [if 0 <? size then DeleteArray t else DeleteScalar t]
               end /\
  refContainerSize g' = refContainerSize g.
Proof.
  intros [_ F] this g'. subst this g'.
  assert (E : refContainer (Pointer_dtor (fst (Pointer_ctor size t g))
                              (snd (Pointer_ctor size t g))) =
              refContainer g).
  { rewrite refContainer_dtor, refContainer_ctor. simpl addr.
    now apply retain_release_sweep. }
  split; [exact E|]. split.
  - rewrite freed_dtor, refContainer_ctor, freed_ctor. simpl addr.
    destruct (retain_release_sweep size t (refContainer g) F) as [_ ->].
    destruct (count_of t (refContainer g)); [reflexivity|].
    simpl. unfold delete_of; simpl. reflexivity.
  - unfold refContainerSize. now rewrite E.
Qed.

Lemma ctor_then_dtor_witness :
  let g := snd (Pointer_ctor 4 100 initial) in
  let g' := Pointer_dtor (fst (Pointer_ctor 4 200 g))
              (snd (Pointer_ctor 4 200 g)) in
  refContainer g' = refContainer g /\ freed g' = [DeleteArray 200].
Proof.
  intros g g'.
  assert (W : well_formed (refContainer g))
    by (split; simpl; repeat constructor; simpl; try lia; tauto).
  destruct (ctor_then_dtor 4 200 g W) as (H1 & H2 & _).
  split; [exact H1 | exact H2].
Defined.

(** X8: on a well-formed list the default constructor leaves the members
    of the new handle as its storage had them and the list as it was; it
    sets [first] to false, registering [shutdown] if [first] was true; and
    it evaluates one [delete] on the null address, unless null had a
    record already.  It does not leave a record for null. *)
Theorem default_ctor_effect (size : Z) (raw : Pointer) (g : GC) :
  well_formed (refContainer g) ->
  Pointer_default size raw g =
  (raw,
   {| refContainer := refContainer g;
      first := false;
      atexit := if first g then S (atexit g) else atexit g;
      freed :=
        freed g ++
        match count_of nullptr (refContainer g) with
        | Some _ => []
        | None =>
            [if 0 <? size then DeleteArray nullptr else DeleteScalar nullptr]
        end |}).
Proof.
  intros [_ F]. unfold Pointer_default.
  destruct (Pointer_ctor size nullptr g) as [tmp g1] eqn:E.
  assert (Et : addr tmp = nullptr).
  { change tmp with (fst (tmp, g1)). now rewrite <- E. }
  assert (Eg : g1 = snd (Pointer_ctor size nullptr g)) by now rewrite E.
  destruct (retain_release_sweep size nullptr (refContainer g) F)
    as [Hl Hd].
  f_equal. apply GC_ext; cbn [refContainer first atexit freed].
  - now rewrite refContainer_dtor, Et, Eg, refContainer_ctor.
  - destruct (statics_dtor tmp g1) as [-> _]. now rewrite Eg.
  - destruct (statics_dtor tmp g1) as [_ ->]. now rewrite Eg.
  - rewrite freed_dtor, Et, Eg, refContainer_ctor, freed_ctor, Hd.
    now destruct (count_of nullptr (refContainer g)).
Qed.

Lemma default_ctor_effect_witness :
  Pointer_default 0 (mkPointer 77 true 9) (snd (Pointer_ctor 0 100 initial)) =
  (mkPointer 77 true 9,
   {| refContainer := [PtrDetails.mk 1 100 false 0];
      first := false; atexit := 1%nat; freed := [DeleteScalar 0] |}).
Proof.
  apply (default_ctor_effect 0 (mkPointer 77 true 9)
           (snd (Pointer_ctor 0 100 initial))).
  split; simpl; repeat constructor; simpl; try lia; tauto.
Defined.

(** ** Size of the list, and the state after [shutdown] *)

(** X10: while the list has fewer than 2^31 records, [refContainerSize]
    is its length, and it is zero exactly when the list is empty (the test
    [shutdown] starts with); after [shutdown] it is zero. *)
Theorem refContainerSize_length (g : GC) :
  Z.of_nat (length (refContainer g)) < 2 ^ 31 ->
  refContainerSize g = Z.of_nat (length (refContainer g)) /\
  (refContainerSize g = 0 <-> refContainer g = []) /\
  refContainerSize (shutdown g) = 0.
Proof.
  intros H.
  assert (E : refContainerSize g = Z.of_nat (length (refContainer g))).
  { unfold refContainerSize. apply to_int_small. lia. }
  split; [exact E|]. split.
  - rewrite E. destruct (refContainer g); simpl; split; intros H0;
      trivial; try discriminate; lia.
  - unfold refContainerSize. now rewrite refContainer_shutdown by lia.
Qed.

Lemma refContainerSize_length_witness :
  refContainerSize (snd (Pointer_ctor 0 200 (snd (Pointer_ctor 0 100 initial))))
  = 2.
Proof.
  apply (refContainerSize_length
           (snd (Pointer_ctor 0 200 (snd (Pointer_ctor 0 100 initial))))).
  reflexivity.
Defined.

Lemma dtor_on_empty (this : Pointer) (g : GC) :
  refContainer g = [] -> Pointer_dtor this g = g.
Proof.
  intros E. apply dtor_absent; rewrite E; [constructor | reflexivity].
Qed.

(** X16: on a list of fewer than 2^32 records (where the test
    [refContainerSize() == 0] of [shutdown] is the test for the empty list),
    once [shutdown] has run, running it again, sweeping, or destroying or
    releasing any handle (as the destructors of handles that outlive it do)
    changes nothing: the list stays empty and no [delete] is evaluated a
    second time. *)
Theorem nothing_after_shutdown (this : Pointer) (g : GC) :
  Z.of_nat (length (refContainer g)) < 2 ^ 32 ->
  refContainer (shutdown g) = [] /\
  shutdown (shutdown g) = shutdown g /\
  collect (shutdown g) = (false, shutdown g) /\
  Pointer_dtor this (shutdown g) = shutdown g /\
  removePointer this (addr this) (shutdown g) = shutdown g.
Proof.
  intros H. pose proof (refContainer_shutdown g H) as E.
  split; [exact E|]. split; [|split; [|split]].
  - unfold shutdown at 1. unfold refContainerSize. now rewrite E.
  - apply collect_positive. rewrite E. constructor.
  - now apply dtor_on_empty.
  - rewrite removePointer_dtor. now apply dtor_on_empty.
Qed.

Lemma nothing_after_shutdown_witness :
  let g := snd (Pointer_ctor 0 200 (snd (Pointer_ctor 0 100 initial))) in
  freed (shutdown g) = [DeleteScalar 100; DeleteScalar 200] /\
  Pointer_dtor (mkPointer 100 false 0) (shutdown g) = shutdown g.
Proof.
  intros g. split; [reflexivity|].
  apply (nothing_after_shutdown (mkPointer 100 false 0) g). reflexivity.
Defined.

(** ** Assignment: what it leaves alone *)

(** X11: on a well-formed list, assigning a handle that holds [A] the raw
    address [B] leaves the count of every address other than [A] and [B]
    as it was, and does not touch the array flag and size of the handle
    nor the static [first]. *)
Theorem assign_ptr_frame (size : Z) (this : Pointer) (B : address) (g : GC) :
  well_formed (refContainer g) ->
  let res := assign_ptr size this B g in
  (forall x, x <> addr this -> x <> B ->
     count_of x (refContainer (snd res)) = count_of x (refContainer g)) /\
  isArray (snd (fst res)) = isArray this /\
  arraySize (snd (fst res)) = arraySize this /\
  first (snd res) = first g.
Proof.
  intros W res. subst res.
  split; [|split; [reflexivity|split; [reflexivity|]]].
  - intros x HA HB.
    rewrite refContainer_assign_ptr, count_of_retain.
    destruct (Z.eqb_spec x B); [tauto|]. now apply dtor_frame.
  - apply statics_assign_ptr.
Qed.

Lemma assign_ptr_frame_witness :
  let g := {| refContainer := [PtrDetails.mk 1 100 false 0;
                               PtrDetails.mk 2 200 false 0;
                               PtrDetails.mk 5 300 false 0];
              first := false; atexit := 1%nat; freed := [] |} in
  count_of 300
    (refContainer (snd (assign_ptr 0 (mkPointer 100 false 0) 200 g))) =
  Some 5.
Proof.
  intros g.
  assert (W : well_formed (refContainer g)).
  { split; simpl; repeat constructor; simpl; lia. }
  destruct (assign_ptr_frame 0 (mkPointer 100 false 0) 200 g W) as [H _].
  rewrite H; [reflexivity | discriminate | discriminate].
Defined.

(** ** The view of a constructed handle *)

(** X13: for an instantiation whose [size] fits an [int], the handle built
    by [Pointer(t)] views [size] elements from [t] on when [size] is
    positive and one element otherwise: the traversal from [begin] to
    [end] yields exactly these addresses, and dereferencing [end] signals
    the out-of-range error. *)
Theorem constructed_handle_view (size : Z) (t : address) (g : GC) :
  - 2 ^ 31 <= size < 2 ^ 31 ->
  let this := fst (Pointer_ctor size t g) in
  let K := Z.to_nat (Z.max 1 size) in
  Iter.traverse (S K) (begin this) (end_ this) =
    Iter.Yields (map (fun i => t + Z.of_nat i) (seq 0 K)) /\
  Iter.deref (end_ this) = Iter.OutOfRangeExc.
Proof.
  intros H this K.
  assert (Hs : (if isArray this then to_int (arraySize this) else 1) =
               Z.of_nat K).
  { subst this K. simpl. destruct (Z.ltb_spec 0 size).
    - unfold to_unsigned. rewrite Z.mod_small by lia.
      rewrite to_int_small by lia. lia.
    - lia. }
  unfold begin, end_. rewrite Hs. subst this. simpl addr. split.
  - apply traverse_span; lia.
  - unfold Iter.deref; simpl. now rewrite Z.leb_refl.
Qed.

Lemma constructed_handle_view_witness :
  let this := fst (Pointer_ctor 0 100 initial) in
  Iter.traverse 2 (begin this) (end_ this) = Iter.Yields [100].
Proof.
  intros this.
  destruct (constructed_handle_view 0 100 initial) as [H _]; [split; lia|].
  exact H.
Defined.

(** ** A pointee that owns a handle: the sweep does not return *)

Module ReentrantDivergence.
Import Reentrant ReentrantFacts.

Lemma sweep_at (members : address -> list address) (fuel : nat) (id : nat)
  (s : state) (b : bool) :
  sweep members (S fuel) (Some id) s b =
  match lookup id (nodes s) with
  | None => InvalidIterator s
  | Some d =>
      if PtrDetails.refcount d =? 0 then
        match
          destroy
            (fun s' =>
               sweep members fuel (option_map fst (hd_error (nodes s'))) s'
                 false)
            (members (PtrDetails.memPtr d))
            {| nodes := nodes s; deletes := deletes s ++ [delete_of d] |}
        with
        | Returned s2 _ =>
            match lookup id (nodes s2) with
            | None => InvalidIterator s2
            | Some _ =>
                sweep members fuel (successor id (nodes s2))
                  {| nodes := erase id (nodes s2); deletes := deletes s2 |}
                  true
            end
        | o => o
        end
      else sweep members fuel (successor id (nodes s)) s b
  end.
Proof. reflexivity. Qed.

Section Owner.

Variable members : address -> list address.
Variables (id : nat) (d : details) (post : list node).
Variables (m : address) (ms : list address).
Hypothesis d_dead : dead d = true.
Hypothesis owns : members (PtrDetails.memPtr d) = m :: ms.

(** With the iterator anywhere before or at the record [d], the loop
    reaches [d], enters its deletion and, through the destructor of the
    handle it owns, starts over on the same list. *)
Lemma sweep_never_returns (fuel : nat) :
  forall (pre1 pre2 : list node) (log : list DeleteExpr) (b : bool),
  NoDup (map fst (pre1 ++ pre2 ++ (id, d) :: post)) ->
  Forall (fun n => node_live n = true) (pre1 ++ pre2) ->
  find_node m (pre1 ++ pre2 ++ (id, d) :: post) = None ->
  exists log',
    sweep members fuel (option_map fst (hd_error (pre2 ++ (id, d) :: post)))
      {| nodes := pre1 ++ pre2 ++ (id, d) :: post; deletes := log |} b =
    OutOfFuel {| nodes := pre1 ++ pre2 ++ (id, d) :: post; deletes := log' |}.
Proof.
  induction fuel as [|fuel IH]; intros pre1 pre2 log b ND L U.
  - simpl. now eexists.
  - destruct pre2 as [|[i x] pre2].
    + cbn [app hd_error option_map fst] in *.
      rewrite sweep_at. cbn [nodes deletes].
      rewrite lookup_middle.
      2:{ rewrite map_app in ND. simpl in ND. apply NoDup_remove_2 in ND.
          rewrite in_app_iff in ND. tauto. }
      unfold dead in d_dead. rewrite d_dead, owns. cbn [destroy].
      unfold release. cbn [nodes]. rewrite U.
      rewrite app_nil_r in L.
      destruct (IH [] pre1 (log ++ [delete_of d]) false ND L U)
        as [log' E].
      cbn [app] in E. cbv beta. cbn [nodes]. rewrite E. now eexists.
    + cbn [app hd_error option_map fst] in *.
      rewrite sweep_at. cbn [nodes deletes].
      rewrite lookup_middle.
      2:{ rewrite map_app in ND. simpl in ND. apply NoDup_remove_2 in ND.
          rewrite in_app_iff in ND. tauto. }
      assert (Hx : node_live (i, x) = true).
      { rewrite Forall_forall in L. apply L.
        rewrite in_app_iff. right. now left. }
      unfold node_live, live, dead in Hx. cbn [snd] in Hx.
      apply negb_true_iff in Hx. rewrite Hx.
      rewrite successor_middle.
      2:{ rewrite map_app in ND. simpl in ND. apply NoDup_remove_2 in ND.
          rewrite in_app_iff in ND. tauto. }
      assert (ND' : NoDup (map fst ((pre1 ++ [(i, x)]) ++
                                      pre2 ++ (id, d) :: post)))
        by (rewrite <- app_assoc; exact ND).
      assert (L' : Forall (fun n => node_live n = true)
                     ((pre1 ++ [(i, x)]) ++ pre2))
        by (rewrite <- app_assoc; exact L).
      assert (U' : find_node m ((pre1 ++ [(i, x)]) ++
                                pre2 ++ (id, d) :: post) = None)
        by (rewrite <- app_assoc; exact U).
      destruct (IH (pre1 ++ [(i, x)]) pre2 log b ND' L' U') as [log' E].
      rewrite <- app_assoc in E. exists log'. exact E.
Qed.

End Owner.

(** X12: let the list have distinct nodes, only records of non-zero count
    before the record [d], and [d] of count zero; let the object [d]
    stands for own a handle whose address has no record in the list (a
    member left unset, for instance).  Then [collect] does not return,
    whatever fuel it is given: the list is still whole, [d] included, at
    every depth. *)
Theorem collect_never_returns (members : address -> list address)
  (pre post : list node) (id : nat) (d : details) (m : address)
  (ms : list address) (log : list DeleteExpr) (fuel : nat) :
  NoDup (map fst (pre ++ (id, d) :: post)) ->
  Forall (fun n => node_live n = true) pre ->
  dead d = true ->
  members (PtrDetails.memPtr d) = m :: ms ->
  find_node m (pre ++ (id, d) :: post) = None ->
  exists log',
    collect members fuel
      {| nodes := pre ++ (id, d) :: post; deletes := log |} =
    OutOfFuel {| nodes := pre ++ (id, d) :: post; deletes := log' |}.
Proof.
  intros ND L D O U. unfold collect. cbn [nodes].
  exact (sweep_never_returns members id d post m ms D O fuel [] pre log
           false ND L U).
Qed.

Lemma collect_never_returns_witness :
  exists log',
    collect node_members 7
      {| nodes := [(0%nat, PtrDetails.mk 3 5 false 0);
                   (1%nat, PtrDetails.mk 0 1 false 0)];
         deletes := [] |} =
    OutOfFuel
      {| nodes := [(0%nat, PtrDetails.mk 3 5 false 0);
                   (1%nat, PtrDetails.mk 0 1 false 0)];
         deletes := log' |}.
Proof.
  apply (collect_never_returns node_members
           [(0%nat, PtrDetails.mk 3 5 false 0)] [] 1%nat
           (PtrDetails.mk 0 1 false 0) 2 [] [] 7).
  - simpl. repeat constructor; simpl; intuition discriminate.
  - repeat constructor.
  - reflexivity.
  - reflexivity.
  - reflexivity.
Defined.

End ReentrantDivergence.
